(** * macbird: the Thunderbird MCP bridge

  A shallow embedding of the request/response bridge of
  [server/server.ts] (the MCP side: connection slot, correlation
  table, tool front-end) and of the reconnecting worker of the
  add-on's [background.js] (connect/backoff/heartbeat and command
  dispatch), with the properties the design document states about them.

  Conventions.  The JavaScript globals become fields of a state record
  and every handler becomes a function from state to state.  Whatever
  a handler obtains from its environment (a parsed frame, a fresh
  UUID, a clock reading, whether [ws.send] throws, what the domain
  executor answers) is an explicit argument.  Every observable action
  (a frame handed to a socket, a close, a call of a promise's
  [resolve] or [reject], a timer armed or cancelled) is appended to a
  log carried by the state. *)

From Stdlib Require Import ZArith.
From stdpp Require Import gmap strings list fin_maps.
From Equations Require Import Equations.

Open Scope string_scope.
Open Scope list_scope.
Set Warnings "-register-all".

(** ** JavaScript values, as far as [JSON.parse] can produce them *)

Module Js.

(** [JUndefined] is what reading a missing property yields; the
    parser itself never produces it.  Objects keep their keys in
    insertion order, as [JSON.stringify] prints them. *)
Inductive value : Type :=
| JUndefined
| JNull
| JBool (b : bool)
| JNum (n : Z)
| JStr (s : string)
| JArr (items : list value)
| JObj (fields : list (string * value)).

(** [new Error(message)], or whatever a library call throws. *)
Record error : Type := Error { message : string }.

(** ToBoolean. *)
Definition truthy (v : value) : bool :=
  match v with
  | JUndefined | JNull => false
  | JBool b => b
  | JNum n => negb (n =? 0)%Z
  | JStr s => negb (String.eqb s "")
  | JArr _ | JObj _ => true
  end.

(** [null] and [undefined]: reading a property of either throws a
    [TypeError]. *)
Definition nullish (v : value) : bool :=
  match v with
  | JUndefined | JNull => true
  | _ => false
  end.

(** [typeof v === "object"] (true of [null] and of arrays too). *)
Definition is_object (v : value) : bool :=
  match v with
  | JNull | JArr _ | JObj _ => true
  | _ => false
  end.

(** [typeof v === "string"]. *)
Definition is_string (v : value) : bool :=
  match v with
  | JStr _ => true
  | _ => false
  end.

Fixpoint assoc (k : string) (fs : list (string * value)) : option value :=
  match fs with
  | [] => None
  | (k', v) :: rest => if String.eqb k k' then Some v else assoc k rest
  end.

(** [v.k] for a [v] that is neither [null] nor [undefined]; the keys
    read by this program are never array indices or [length]. *)
Definition get (k : string) (v : value) : value :=
  match v with
  | JObj fs => default JUndefined (assoc k fs)
  | _ => JUndefined
  end.

(** [k in v], for [v] an object or an array. *)
Definition has (k : string) (v : value) : bool :=
  match v with
  | JObj fs => bool_decide (is_Some (assoc k fs))
  | _ => false
  end.

Fixpoint assign (k : string) (x : value) (fs : list (string * value))
  : list (string * value) :=
  match fs with
  | [] => [(k, x)]
  | (k', v) :: rest =>
      if String.eqb k k' then (k', x) :: rest else (k', v) :: assign k x rest
  end.

(** [v.k = x]: an existing key keeps its place, a new one goes last. *)
Definition set (k : string) (x : value) (v : value) : value :=
  match v with
  | JObj fs => JObj (assign k x fs)
  | _ => v
  end.

Fixpoint remove (k : string) (fs : list (string * value))
  : list (string * value) :=
  match fs with
  | [] => []
  | (k', v) :: rest =>
      if String.eqb k k' then remove k rest else (k', v) :: remove k rest
  end.

(** [delete v.k]. *)
Definition delete (k : string) (v : value) : value :=
  match v with
  | JObj fs => JObj (remove k fs)
  | _ => v
  end.

(** ToString returns.  Converting an object goes through its
    [toString] and then its [valueOf]; data never holds a function, so
    an object with a key [toString] of its own hides the inherited
    method and the conversion throws a [TypeError].  An array is
    joined, which converts each element that is neither [null] nor
    [undefined]. *)
Fixpoint stringifiable (v : value) : bool :=
  match v with
  | JArr items => forallb stringifiable items
  | JObj fs => negb (bool_decide (is_Some (assoc "toString" fs)))
  | _ => true
  end.

(** [JSON.parse(JSON.stringify(v))], read where [v] was put: what the
    peer receives for a value sent as JSON.  [JSON.stringify] leaves
    out a property whose value is [undefined], so that the peer reads
    [undefined] there, and prints [undefined] in an array as [null]. *)
Fixpoint wire (v : value) : value :=
  match v with
  | JArr items =>
      JArr (map (λ item, match item with
                         | JUndefined => JNull
                         | _ => wire item
                         end) items)
  | JObj fs =>
      JObj ((fix each (fs : list (string * value)) : list (string * value) :=
               match fs with
               | [] => []
               | (k, x) :: rest =>
                   match x with
                   | JUndefined => each rest
                   | _ => (k, wire x) :: each rest
                   end
               end) fs)
  | _ => v
  end.

(** What [JSON.parse] returns at the peer for a frame sent as
    [JSON.stringify(frame)]; [JSON.stringify(undefined)] is no text at
    all and the peer's parser throws. *)
Definition received (frame : value) : option value :=
  match frame with
  | JUndefined => None
  | _ => Some (wire frame)
  end.

End Js.

(** ** The bridge: [server/server.ts] *)

Module Bridge.

(** A [ServerWebSocket<{ id: string }>]: the transport handle and the
    [data.id] that [server.upgrade] attached to it. *)
Record ServerWebSocket : Type := {
  handle : nat;
  data_id : string;
}.

Record ThunderbirdClient : Type := {
  ws : ServerWebSocket;
  id : string;
  addonId : Js.value;
  connectedAt : string;
}.

(** An entry of [pendingRequests].  [resolve] and [reject] are the two
    functions of one promise, so the entry names that promise;
    [timeout] is the [Timer] returned by [setTimeout]. *)
Record PendingRequest : Type := {
  promise : nat;
  timeout : nat;
}.

(** The closure armed by [setTimeout] in [sendCommandToThunderbird]:
    it captures [requestId] and [reject]. *)
Record TimeoutTask : Type := {
  task_requestId : string;
  task_promise : nat;
  task_delay : Z;
}.

Record Command : Type := {
  type : string;
  payload : Js.value;
}.

Inductive settlement : Type :=
| Fulfilled (v : Js.value)
| Rejected (e : Js.error).

(** What the server does to the outside: [WsSend] is a call of
    [ws.send], recorded whether it returns or throws; [CallResolve] and
    [CallReject] are calls of a promise's two functions. *)
Inductive effect : Type :=
| WsClose (w : ServerWebSocket) (code : Z) (reason : string)
| WsSend (w : ServerWebSocket) (frame : Js.value)
| CallResolve (p : nat) (v : Js.value)
| CallReject (p : nat) (e : Js.error)
| SetTimeout (t : nat) (delay : Z)
| ClearTimeout (t : nat)
| ConsoleError (what : string).

(** The module-level state of the server process, the timers the
    runtime holds for it, and the promises it has handed out. *)
Record state : Type := {
  currentClient : option ThunderbirdClient;
  pendingRequests : gmap string PendingRequest;
  timers : gmap nat TimeoutTask;
  promises : gmap nat settlement;
  next_promise : nat;
  next_timer : nat;
  log : list effect;
}.

Definition init : state := {|
  currentClient := None;
  pendingRequests := ∅;
  timers := ∅;
  promises := ∅;
  next_promise := 0;
  next_timer := 0;
  log := [];
|}.

Definition emit (e : effect) (s : state) : state :=
  {| currentClient := currentClient s;
     pendingRequests := pendingRequests s;
     timers := timers s;
     promises := promises s;
     next_promise := next_promise s;
     next_timer := next_timer s;
     log := log s ++ [e] |}.

Definition set_currentClient (c : option ThunderbirdClient) (s : state) : state :=
  {| currentClient := c;
     pendingRequests := pendingRequests s;
     timers := timers s;
     promises := promises s;
     next_promise := next_promise s;
     next_timer := next_timer s;
     log := log s |}.

Definition set_pendingRequests (m : gmap string PendingRequest) (s : state) : state :=
  {| currentClient := currentClient s;
     pendingRequests := m;
     timers := timers s;
     promises := promises s;
     next_promise := next_promise s;
     next_timer := next_timer s;
     log := log s |}.

(** A promise settles once: a later [resolve] or [reject] is a no-op
    of the language, although the call itself is still made. *)
Definition settle (p : nat) (o : settlement) (s : state) : state :=
  {| currentClient := currentClient s;
     pendingRequests := pendingRequests s;
     timers := timers s;
     promises := match promises s !! p with
                 | None => <[p := o]> (promises s)
                 | Some _ => promises s
                 end;
     next_promise := next_promise s;
     next_timer := next_timer s;
     log := log s |}.

Definition resolve (p : nat) (v : Js.value) (s : state) : state :=
  settle p (Fulfilled v) (emit (CallResolve p v) s).

Definition reject (p : nat) (e : Js.error) (s : state) : state :=
  settle p (Rejected e) (emit (CallReject p e) s).

(** [new Promise(...)]: the next promise, pending. *)
Definition new_promise (s : state) : nat * state :=
  (next_promise s,
   {| currentClient := currentClient s;
      pendingRequests := pendingRequests s;
      timers := timers s;
      promises := promises s;
      next_promise := S (next_promise s);
      next_timer := next_timer s;
      log := log s |}).

(** [setTimeout(task, delay)]: arms a fresh timer and returns it. *)
Definition setTimeout (task : TimeoutTask) (s : state) : nat * state :=
  (next_timer s,
   emit (SetTimeout (next_timer s) (task_delay task))
     {| currentClient := currentClient s;
        pendingRequests := pendingRequests s;
        timers := <[next_timer s := task]> (timers s);
        promises := promises s;
        next_promise := next_promise s;
        next_timer := S (next_timer s);
        log := log s |}).

Definition clearTimeout (t : nat) (s : state) : state :=
  emit (ClearTimeout t)
    {| currentClient := currentClient s;
       pendingRequests := pendingRequests s;
       timers := delete t (timers s);
       promises := promises s;
       next_promise := next_promise s;
       next_timer := next_timer s;
       log := log s |}.

(** [ws.send(JSON.stringify(frame))].  [throws] is the runtime's
    answer: [None] when the call returns, [Some e] when it throws [e]. *)
Definition ws_send (w : ServerWebSocket) (frame : Js.value)
    (throws : option Js.error) (s : state) : state + (Js.error * state) :=
  match throws with
  | None => inl (emit (WsSend w frame) s)
  | Some e => inr (e, emit (WsSend w frame) s)
  end.

Definition welcome (clientId now : string) : Js.value :=
  Js.JObj [("type", Js.JStr "welcome");
           ("payload", Js.JObj [("clientId", Js.JStr clientId);
                                ("timestamp", Js.JStr now)])].

Definition registered : Js.value :=
  Js.JObj [("type", Js.JStr "registered");
           ("payload", Js.JObj [("success", Js.JBool true)])].

Definition heartbeat_ack (now : string) : Js.value :=
  Js.JObj [("type", Js.JStr "heartbeat_ack");
           ("payload", Js.JObj [("timestamp", Js.JStr now)])].

(** The command with [command.requestId = requestId] set, as the
    object [JSON.stringify] is given. *)
Definition command_frame (c : Command) (requestId : string) : Js.value :=
  Js.JObj [("type", Js.JStr (type c));
           ("payload", payload c);
           ("requestId", Js.JStr requestId)].

(** [websocket.open].  [connected] and [now] are the two clock
    readings, the second already in ISO form. *)
Definition open (w : ServerWebSocket) (connected now : string) (s : state) : state :=
  let s1 := match currentClient s with
            | Some old => emit (WsClose (ws old) 1000 "New client connected") s
            | None => s
            end in
  let client := {| ws := w; id := data_id w;
                   addonId := Js.JUndefined; connectedAt := connected |} in
  let s2 := set_currentClient (Some client) s1 in
  emit (WsSend w (welcome (id client) now)) s2.

(** [websocket.close]. *)
Definition close (w : ServerWebSocket) (s : state) : state :=
  match currentClient s with
  | Some c => if decide (id c = data_id w) then set_currentClient None s else s
  | None => s
  end.

(** [pendingRequests.get(k)] for a key read from a parsed frame: only
    a string can equal a key of the table. *)
Definition pending_get (k : Js.value) (s : state) : option PendingRequest :=
  match k with
  | Js.JStr r => pendingRequests s !! r
  | _ => None
  end.

Definition pending_delete (k : Js.value) (s : state) : state :=
  match k with
  | Js.JStr r => set_pendingRequests (delete r (pendingRequests s)) s
  | _ => s
  end.

(** The [catch] of [message]: log and go on. *)
Definition caught (r : state + (Js.error * state)) : state :=
  match r with
  | inl s => s
  | inr (_, s) => emit (ConsoleError "Error processing message from client") s
  end.

(** The [switch (data.type)] of [message]. *)
Inductive frame_type : Type := register | heartbeat | response | unknown.

Definition classify (type : Js.value) : frame_type :=
  match type with
  | Js.JStr "register" => register
  | Js.JStr "heartbeat" => heartbeat
  | Js.JStr "response" => response
  | _ => unknown
  end.

(** The body of the [try] of [message], once [data] is parsed and is
    not [null]; [c] is [currentClient]. *)
Definition dispatch (w : ServerWebSocket) (c : ThunderbirdClient)
    (data : Js.value) (now : string) (throws : option Js.error)
    (s : state) : state :=
  match classify (Js.get "type" data) with
  | register =>
      let c' := {| ws := ws c; id := id c;
                   addonId := Js.get "addonId" data;
                   connectedAt := connectedAt c |} in
      caught (ws_send w registered throws (set_currentClient (Some c') s))
  | heartbeat =>
      caught (ws_send w (heartbeat_ack now) throws s)
  | response =>
      if Js.truthy (Js.get "requestId" data) then
        match pending_get (Js.get "requestId" data) s with
        | Some pending =>
            pending_delete (Js.get "requestId" data)
              (resolve (promise pending) (Js.get "payload" data)
                 (clearTimeout (timeout pending) s))
        | None => s
        end
      else s
  | unknown => emit (ConsoleError "Unknown message type") s
  end.

(** [websocket.message].  [parsed] is the outcome of [JSON.parse]
    ([None] when it throws), [now] the clock reading used by the
    heartbeat reply, [throws] the answer of [ws.send] if it is called. *)
Definition message (w : ServerWebSocket) (parsed : option Js.value)
    (now : string) (throws : option Js.error) (s : state) : state :=
  match currentClient s with
  | None => s
  | Some c =>
    if decide (id c = data_id w) then
      match parsed with
      | None => emit (ConsoleError "Error processing message from client") s
      | Some data =>
          if Js.nullish data
          then emit (ConsoleError "Error processing message from client") s
          else dispatch w c data now throws s
      end
    else s
  end.

Definition no_client : Js.error :=
  Js.Error "No Thunderbird client connected. Make sure the addon is loaded.".

Definition request_timeout : Js.error := Js.Error "Request timeout".

(** [sendCommandToThunderbird(command, timeout)].  [requestId] is what
    [crypto.randomUUID()] returns and [throws] the answer of
    [ws.send].  The result is the promise handed to the caller. *)
Definition sendCommandToThunderbird (command : Command) (delay : Z)
    (requestId : string) (throws : option Js.error) (s : state) : nat * state :=
  let '(p, s) := new_promise s in
  match currentClient s with
  | None => (p, reject p no_client s)
  | Some c =>
      let '(timeoutTimer, s) :=
        setTimeout {| task_requestId := requestId; task_promise := p;
                      task_delay := delay |} s in
      let s := set_pendingRequests
                 (<[requestId := {| promise := p; timeout := timeoutTimer |}]>
                    (pendingRequests s)) s in
      match ws_send (ws c) (command_frame command requestId) throws s with
      | inl s => (p, s)
      | inr (error, s) =>
          let s := clearTimeout timeoutTimer s in
          let s := set_pendingRequests (delete requestId (pendingRequests s)) s in
          (p, reject p error s)
      end
  end.

(** The runtime fires timer [t]: nothing if it was cleared or has
    fired already, the armed closure otherwise. *)
Definition timer_fires (t : nat) (s : state) : state :=
  match timers s !! t with
  | None => s
  | Some task =>
      let s := {| currentClient := currentClient s;
                  pendingRequests := pendingRequests s;
                  timers := delete t (timers s);
                  promises := promises s;
                  next_promise := next_promise s;
                  next_timer := next_timer s;
                  log := log s |} in
      let s := set_pendingRequests
                 (delete (task_requestId task) (pendingRequests s)) s in
      reject (task_promise task) request_timeout s
  end.

(** The default deadline and the one the search tool passes. *)
Definition default_timeout : Z := 30000.
Definition search_timeout : Z := 60000.

End Bridge.

(** ** Runs of the bridge *)

Module BridgeRun.
Import Bridge.

(** What can happen to the server process: the three socket
    callbacks, a tool call reaching [sendCommandToThunderbird], and
    the runtime firing a timer. *)
Inductive event : Type :=
| Open (w : ServerWebSocket) (connected now : string)
| Message (w : ServerWebSocket) (parsed : option Js.value)
    (now : string) (throws : option Js.error)
| Close (w : ServerWebSocket)
| Send (command : Command) (delay : Z) (requestId : string)
    (throws : option Js.error)
| Timer (t : nat).

Definition step (s : state) (ev : event) : state :=
  match ev with
  | Open w connected now => open w connected now s
  | Message w parsed now throws => message w parsed now throws s
  | Close w => close w s
  | Send command delay requestId throws =>
      (sendCommandToThunderbird command delay requestId throws s).2
  | Timer t => timer_fires t s
  end.

Definition run (evs : list event) (s : state) : state := foldl step s evs.

Definition reachable (s : state) : Prop := ∃ evs, s = run evs init.

(** The calls of [resolve] and [reject] recorded in a log, in order. *)
Definition call_of (e : effect) : option (nat * settlement) :=
  match e with
  | CallResolve p v => Some (p, Fulfilled v)
  | CallReject p e => Some (p, Rejected e)
  | _ => None
  end.

Definition calls (l : list effect) : list (nat * settlement) := omap call_of l.

(** The promises on which [resolve] or [reject] has been called. *)
Definition called (s : state) : list nat := (calls (log s)).*1.

(** The invariant of the correlation machinery. *)
Record wf (s : state) : Prop := {
  wf_entry : ∀ r e, pendingRequests s !! r = Some e →
    ∃ k, timers s !! timeout e = Some k ∧
         task_requestId k = r ∧ task_promise k = promise e;
  wf_timer_lt : ∀ t k, timers s !! t = Some k →
    t < next_timer s ∧ task_promise k < next_promise s;
  wf_timer_inj : ∀ t t' k k', timers s !! t = Some k → timers s !! t' = Some k' →
    task_promise k = task_promise k' → t = t';
  wf_armed : ∀ t k, timers s !! t = Some k → task_promise k ∉ called s;
  wf_once : NoDup (called s);
  wf_call_lt : ∀ p, p ∈ called s → p < next_promise s;
  wf_promises : ∀ p o, promises s !! p = Some o ↔ (p, o) ∈ calls (log s);
}.

End BridgeRun.

(** ** The worker: the add-on's [background.js] *)

Module Worker.

Definition CC_SERVER_URL : string := "ws://localhost:37842/ws".
Definition RECONNECT_INTERVAL : Z := 5000.
Definition HEARTBEAT_INTERVAL : Z := 30000.

Inductive readyState : Type := CONNECTING | OPEN | CLOSING | CLOSED.

Inductive effect : Type :=
| NewWebSocket (sock : nat) (url : string)
| WsSend (sock : nat) (frame : Js.value)
| SetTimeout (t : nat) (delay : Z)
| ClearTimeout (t : nat)
| SetInterval (i : nat) (delay : Z)
| ClearInterval (i : nat)
| ConsoleWarn (what : string)
| ConsoleError (what : string).

(** The three globals [ws], [reconnectTimeout], [heartbeatInterval];
    the sockets the script has created with the [readyState] the
    browser reports for each; the timeouts and intervals the browser
    holds armed, with their delays.  Timer ids are the browser's
    positive integers, shared by timeouts and intervals. *)
Record state : Type := {
  ws : option nat;
  reconnectTimeout : option nat;
  heartbeatInterval : option nat;
  sockets : gmap nat readyState;
  timeouts : gmap nat Z;
  intervals : gmap nat Z;
  next_socket : nat;
  next_id : nat;
  log : list effect;
}.

Definition init : state := {|
  ws := None;
  reconnectTimeout := None;
  heartbeatInterval := None;
  sockets := ∅;
  timeouts := ∅;
  intervals := ∅;
  next_socket := 0;
  next_id := 1;
  log := [];
|}.

(** ToBoolean of a timer variable: [null] and [0] are falsy. *)
Definition truthy_id (o : option nat) : bool :=
  match o with
  | Some n => negb (Nat.eqb n 0)
  | None => false
  end.

Definition emit (e : effect) (s : state) : state :=
  {| ws := ws s; reconnectTimeout := reconnectTimeout s;
     heartbeatInterval := heartbeatInterval s; sockets := sockets s;
     timeouts := timeouts s; intervals := intervals s;
     next_socket := next_socket s; next_id := next_id s;
     log := log s ++ [e] |}.

Definition set_ws (o : option nat) (s : state) : state :=
  {| ws := o; reconnectTimeout := reconnectTimeout s;
     heartbeatInterval := heartbeatInterval s; sockets := sockets s;
     timeouts := timeouts s; intervals := intervals s;
     next_socket := next_socket s; next_id := next_id s;
     log := log s |}.

Definition set_reconnectTimeout (o : option nat) (s : state) : state :=
  {| ws := ws s; reconnectTimeout := o;
     heartbeatInterval := heartbeatInterval s; sockets := sockets s;
     timeouts := timeouts s; intervals := intervals s;
     next_socket := next_socket s; next_id := next_id s;
     log := log s |}.

Definition set_heartbeatInterval (o : option nat) (s : state) : state :=
  {| ws := ws s; reconnectTimeout := reconnectTimeout s;
     heartbeatInterval := o; sockets := sockets s;
     timeouts := timeouts s; intervals := intervals s;
     next_socket := next_socket s; next_id := next_id s;
     log := log s |}.

(** The browser moves socket [k] to state [r]. *)
Definition set_readyState (k : nat) (r : readyState) (s : state) : state :=
  {| ws := ws s; reconnectTimeout := reconnectTimeout s;
     heartbeatInterval := heartbeatInterval s;
     sockets := <[k := r]> (sockets s);
     timeouts := timeouts s; intervals := intervals s;
     next_socket := next_socket s; next_id := next_id s;
     log := log s |}.

(** [new WebSocket(CC_SERVER_URL)], when the constructor returns. *)
Definition new_WebSocket (s : state) : nat * state :=
  (next_socket s,
   emit (NewWebSocket (next_socket s) CC_SERVER_URL)
     {| ws := ws s; reconnectTimeout := reconnectTimeout s;
        heartbeatInterval := heartbeatInterval s;
        sockets := <[next_socket s := CONNECTING]> (sockets s);
        timeouts := timeouts s; intervals := intervals s;
        next_socket := S (next_socket s); next_id := next_id s;
        log := log s |}).

Definition setTimeout (delay : Z) (s : state) : nat * state :=
  (next_id s,
   emit (SetTimeout (next_id s) delay)
     {| ws := ws s; reconnectTimeout := reconnectTimeout s;
        heartbeatInterval := heartbeatInterval s; sockets := sockets s;
        timeouts := <[next_id s := delay]> (timeouts s);
        intervals := intervals s;
        next_socket := next_socket s; next_id := S (next_id s);
        log := log s |}).

Definition clearTimeout (o : option nat) (s : state) : state :=
  match o with
  | Some t =>
      emit (ClearTimeout t)
        {| ws := ws s; reconnectTimeout := reconnectTimeout s;
           heartbeatInterval := heartbeatInterval s; sockets := sockets s;
           timeouts := delete t (timeouts s); intervals := intervals s;
           next_socket := next_socket s; next_id := next_id s;
           log := log s |}
  | None => s
  end.

Definition setInterval (delay : Z) (s : state) : nat * state :=
  (next_id s,
   emit (SetInterval (next_id s) delay)
     {| ws := ws s; reconnectTimeout := reconnectTimeout s;
        heartbeatInterval := heartbeatInterval s; sockets := sockets s;
        timeouts := timeouts s;
        intervals := <[next_id s := delay]> (intervals s);
        next_socket := next_socket s; next_id := S (next_id s);
        log := log s |}).

Definition clearInterval (o : option nat) (s : state) : state :=
  match o with
  | Some i =>
      emit (ClearInterval i)
        {| ws := ws s; reconnectTimeout := reconnectTimeout s;
           heartbeatInterval := heartbeatInterval s; sockets := sockets s;
           timeouts := timeouts s; intervals := delete i (intervals s);
           next_socket := next_socket s; next_id := next_id s;
           log := log s |}
  | None => s
  end.

(** [sendToCC(message)]. *)
Definition sendToCC (message : Js.value) (s : state) : bool * state :=
  match ws s with
  | Some k =>
      match sockets s !! k with
      | Some OPEN => (true, emit (WsSend k message) s)
      | _ => (false, emit (ConsoleWarn "Cannot send message - not connected") s)
      end
  | None => (false, emit (ConsoleWarn "Cannot send message - not connected") s)
  end.

(** [connectToCC()].  [ctor_throws] tells whether [new WebSocket]
    throws; the handlers it attaches are [onopen], [onclose],
    [onerror] and [onmessage] below. *)
Definition connectToCC (ctor_throws : bool) (s : state) : state :=
  if ctor_throws then
    let s := emit (ConsoleError "Failed to create WebSocket") s in
    let '(t, s) := setTimeout RECONNECT_INTERVAL s in
    set_reconnectTimeout (Some t) s
  else
    let '(k, s) := new_WebSocket s in
    set_ws (Some k) s.

Definition register_frame (addonId now : string) : Js.value :=
  Js.JObj [("type", Js.JStr "register");
           ("addonId", Js.JStr addonId);
           ("timestamp", Js.JStr now)].

Definition heartbeat_frame : Js.value :=
  Js.JObj [("type", Js.JStr "heartbeat")].

(** [ws.onopen] of socket [k], which the browser has just opened.
    [addonId] is [browser.runtime.id], [now] the clock reading. *)
Definition onopen (k : nat) (addonId now : string) (s : state) : state :=
  let s := set_readyState k OPEN s in
  let s := (sendToCC (register_frame addonId now) s).2 in
  let s := if truthy_id (heartbeatInterval s)
           then clearInterval (heartbeatInterval s) s else s in
  let '(i, s) := setInterval HEARTBEAT_INTERVAL s in
  let s := set_heartbeatInterval (Some i) s in
  if truthy_id (reconnectTimeout s)
  then set_reconnectTimeout None (clearTimeout (reconnectTimeout s) s)
  else s.

(** [ws.onclose] of socket [k], which the browser has just closed. *)
Definition onclose (k : nat) (s : state) : state :=
  let s := set_readyState k CLOSED s in
  let s := set_ws None s in
  let s := if truthy_id (heartbeatInterval s)
           then set_heartbeatInterval None (clearInterval (heartbeatInterval s) s)
           else s in
  if negb (truthy_id (reconnectTimeout s)) then
    let '(t, s) := setTimeout RECONNECT_INTERVAL s in
    set_reconnectTimeout (Some t) s
  else s.

(** [ws.onerror]. *)
Definition onerror (k : nat) (s : state) : state :=
  emit (ConsoleError "WebSocket error") s.

(** The browser fires timeout [t]: nothing if it is not armed,
    [connectToCC] otherwise. *)
Definition timeout_fires (t : nat) (ctor_throws : bool) (s : state) : state :=
  match timeouts s !! t with
  | None => s
  | Some _ =>
      connectToCC ctor_throws
        {| ws := ws s; reconnectTimeout := reconnectTimeout s;
           heartbeatInterval := heartbeatInterval s; sockets := sockets s;
           timeouts := delete t (timeouts s); intervals := intervals s;
           next_socket := next_socket s; next_id := next_id s;
           log := log s |}
  end.

(** The browser fires interval [i]: the heartbeat. *)
Definition interval_fires (i : nat) (s : state) : state :=
  match intervals s !! i with
  | None => s
  | Some _ => (sendToCC heartbeat_frame s).2
  end.

(** *** Command dispatch *)

Inductive handler : Type :=
| handleListAccounts | handleListFolders | handleListUnreadEmails
| handleSearchEmails | handleReadEmailRaw | handleReadEmail
| handleSendEmail | handleReadEmailAttachments | handleDownloadAttachment.

(** What awaiting a handler yields: its result, or the value it threw. *)
Inductive outcome : Type :=
| Returns (result : Js.value)
| Raises (thrown : Js.value).

(** The [switch (type)] of [handleCommand]. *)
Definition route (type : Js.value) : option handler :=
  match type with
  | Js.JStr "list_accounts" => Some handleListAccounts
  | Js.JStr "list_folders" => Some handleListFolders
  | Js.JStr "list_unread_emails" => Some handleListUnreadEmails
  | Js.JStr "search_emails" => Some handleSearchEmails
  | Js.JStr "read_email_raw" => Some handleReadEmailRaw
  | Js.JStr "read_email" => Some handleReadEmail
  | Js.JStr "send_email" => Some handleSendEmail
  | Js.JStr "read_email_attachments" => Some handleReadEmailAttachments
  | Js.JStr "download_attachment" => Some handleDownloadAttachment
  | _ => None
  end.

(** The three system messages [handleCommand] returns on at once. *)
Definition system_message (type : Js.value) : bool :=
  match type with
  | Js.JStr "welcome" | Js.JStr "registered" | Js.JStr "heartbeat_ack" => true
  | _ => false
  end.

Definition response_frame (requestId payload : Js.value) : Js.value :=
  Js.JObj [("type", Js.JStr "response");
           ("requestId", requestId);
           ("payload", payload)].

Definition unknown_command (type : Js.value) : Js.value :=
  Js.JObj [("success", Js.JBool false);
           ("error", Js.JStr "Unknown command type");
           ("commandType", type)].

Definition failure (thrown : Js.value) : Js.value :=
  Js.JObj [("success", Js.JBool false);
           ("error", Js.get "message" thrown);
           ("stack", Js.get "stack" thrown)].

(** The tail of [handleCommand]: [if (requestId) sendToCC(...)]. *)
Definition respond (requestId payload : Js.value) (s : state) : state :=
  if Js.truthy requestId
  then (sendToCC (response_frame requestId payload) s).2
  else s.

(** [handleCommand(command)].  [exec] is the domain executor;
    [meanwhile] is what the rest of the script does to the state while
    the handler is awaited (the identity when nothing else runs).
    Destructuring [null] throws before the [try]; so does the
    template literal of the first [console.log] when [type] or
    [requestId] cannot be converted to a string; and so does reading
    [error.message] of a thrown [null] or [undefined] inside the
    [catch]: in each case the async function rejects and nothing is
    sent. *)
Definition handleCommand (command : Js.value)
    (exec : handler → Js.value → outcome)
    (meanwhile : state → state) (s : state) : state :=
  if Js.nullish command then s
  else
    let type := Js.get "type" command in
    let requestId := Js.get "requestId" command in
    let payload := Js.get "payload" command in
    if negb (Js.stringifiable type && Js.stringifiable requestId) then s
    else if system_message type then s
    else
      match route type with
      | Some h =>
          let s := meanwhile s in
          match exec h payload with
          | Returns result => respond requestId result s
          | Raises thrown =>
              let s := emit (ConsoleError "Error handling command") s in
              if Js.truthy requestId then
                if Js.nullish thrown then s
                else (sendToCC (response_frame requestId (failure thrown)) s).2
              else s
          end
      | None => respond requestId (unknown_command type) s
      end.

(** [ws.onmessage]: [parsed] is the outcome of [JSON.parse]. *)
Definition onmessage (parsed : option Js.value)
    (exec : handler → Js.value → outcome)
    (meanwhile : state → state) (s : state) : state :=
  match parsed with
  | None => emit (ConsoleError "Error parsing command") s
  | Some command => handleCommand command exec meanwhile s
  end.

(** *** Connection lifecycle *)

Inductive event : Type :=
| OnOpen (k : nat) (addonId now : string)
| OnClose (k : nat)
| OnError (k : nat)
| TimeoutFires (t : nat) (ctor_throws : bool)
| IntervalFires (i : nat).

Definition step (s : state) (ev : event) : state :=
  match ev with
  | OnOpen k addonId now => onopen k addonId now s
  | OnClose k => onclose k s
  | OnError k => onerror k s
  | TimeoutFires t ctor_throws => timeout_fires t ctor_throws s
  | IntervalFires i => interval_fires i s
  end.

(** The script's last statement, [connectToCC()], run at load time. *)
Definition boot (ctor_throws : bool) : state := connectToCC ctor_throws init.

Definition run (evs : list event) (s : state) : state := foldl step s evs.

(** What the browser can deliver in a state: socket events for a
    socket that is not closed yet, and timers that are armed. *)
Definition enabled (s : state) (ev : event) : bool :=
  match ev with
  | OnOpen k _ _ =>
      match sockets s !! k with Some CONNECTING => true | _ => false end
  | OnClose k | OnError k =>
      match sockets s !! k with
      | Some CONNECTING | Some OPEN | Some CLOSING => true
      | _ => false
      end
  | TimeoutFires t _ => bool_decide (is_Some (timeouts s !! t))
  | IntervalFires i => bool_decide (is_Some (intervals s !! i))
  end.

(** Every event of the run is one the browser can deliver when it
    comes. *)
Fixpoint feasible (evs : list event) (s : state) : bool :=
  match evs with
  | [] => true
  | ev :: rest => enabled s ev && feasible rest (step s ev)
  end.

(** The connection attempts made so far: the sockets created. *)
Definition attempt_of (e : effect) : option nat :=
  match e with
  | NewWebSocket k _ => Some k
  | _ => None
  end.

Definition attempts (s : state) : list nat := omap attempt_of (log s).

End Worker.

(** ** The tool front-end: the [read_email] case of the
     [CallToolRequestSchema] handler *)

Module FrontEnd.

(** The value the handler returns: [text] is the value given to
    [JSON.stringify(_, null, 2)] for the single text item of
    [content]. *)
Record CallToolResult : Type := {
  text : Js.value;
  isError : bool;
}.

(** [s.includes(t)]. *)
Fixpoint includes (t s : string) : bool :=
  String.prefix t s ||
  match s with
  | EmptyString => false
  | String _ rest => includes t rest
  end.

Section Turndown.

(** [turndownService.turndown]: markdown, or the error it throws. *)
Variable turndown : string → string + Js.error.

(** The condition under which the body is converted. *)
Definition html_message (result : Js.value) : bool :=
  Js.truthy result && Js.is_object result &&
  Js.has "success" result && Js.has "message" result &&
  Js.truthy (Js.get "message" result) &&
  Js.is_object (Js.get "message" result) &&
  Js.has "isHtml" (Js.get "message" result) &&
  Js.truthy (Js.get "isHtml" (Js.get "message" result)).

(** The [try] block, on [result.message]. *)
Definition convert (message : Js.value) : Js.value :=
  if Js.has "body" message then
    match Js.get "body" message with
    | Js.JStr html =>
        match turndown html with
        | inl markdown =>
            Js.delete "isHtml" (Js.set "body" (Js.JStr markdown) message)
        | inr _ => message
        end
    | _ => message
    end
  else message.

(** [result] after the post-processing. *)
Definition to_markdown (result : Js.value) : Js.value :=
  if html_message result
  then Js.set "message" (convert (Js.get "message" result)) result
  else result.

Definition hint : string :=
  "Make sure the Thunderbird addon is loaded and connected to the C&C server".

(** The whole case, from the settlement of the promise returned by
    [sendCommandToThunderbird]. *)
Definition read_email (settled : Bridge.settlement) : CallToolResult :=
  match settled with
  | Bridge.Fulfilled result =>
      {| text := to_markdown result; isError := false |}
  | Bridge.Rejected e =>
      {| text := Js.JObj
                   [("error", Js.JStr (Js.message e));
                    ("hint",
                     if includes "No Thunderbird client" (Js.message e)
                     then Js.JStr hint else Js.JUndefined)];
         isError := true |}
  end.

End Turndown.

End FrontEnd.

(** ** Vocabulary of the statements about the bridge *)

Module Scenario.
Import Bridge BridgeRun.

(** The connection [w] holds the current slot. *)
Definition current (w : ServerWebSocket) (s : state) : Prop :=
  ∃ c, currentClient s = Some c ∧ ws c = w ∧ id c = data_id w.

(** A frame the switch of [message] takes for a response to [r]. *)
Definition response_to (r : string) (data : Js.value) : Prop :=
  classify (Js.get "type" data) = response ∧
  Js.get "requestId" data = Js.JStr r.

(** The responses [rs], as (requestId, payload) pairs, arriving in
    the order of the list over connection [w]; each is the frame the
    worker builds. *)
Definition deliver (w : ServerWebSocket) (now : string)
    (throws : option Js.error) (rs : list (string * Js.value)) (s : state) : state :=
  foldl (λ s rv,
           message w (Some (Worker.response_frame (Js.JStr rv.1) rv.2)) now throws s)
        s rs.

(** How the request registered under [r] with entry [e] gets
    completed in state [s]: its deadline fires, or a response to [r]
    arrives from the current connection.  The second index is how the
    caller's promise is settled. *)
Inductive completes (s : state) (r : string) (e : PendingRequest)
  : state → settlement → Prop :=
| by_timeout :
    completes s r e (timer_fires (timeout e) s) (Rejected request_timeout)
| by_response w data now throws :
    current w s → response_to r data → r ≠ "" →
    completes s r e (message w (Some data) now throws s)
      (Fulfilled (Js.get "payload" data)).

(** The current connection is destroyed: its socket disconnects, or
    a new connection takes its place. *)
Inductive connection_lost (s : state) : state → Prop :=
| lost_by_disconnect w :
    connection_lost s (close w s)
| lost_by_supersession w connected now :
    connection_lost s (open w connected now s).

(** Every request in flight in [s] is, in [s'], out of the table
    with its promise settled. *)
Definition abandoned (s s' : state) : Prop :=
  ∀ r e, pendingRequests s !! r = Some e →
    pendingRequests s' !! r = None ∧ is_Some (promises s' !! promise e).

(** Events that leave connection [w] in place: no new connection is
    accepted and [w] itself does not disconnect. *)
Definition undisturbed (w : ServerWebSocket) (ev : event) : Prop :=
  match ev with
  | Open _ _ _ => False
  | Close w' => data_id w' ≠ data_id w
  | _ => True
  end.

(** Two connections, a command and a response used as examples. *)
Definition first : ServerWebSocket := {| handle := 1; data_id := "c-1" |}.
Definition second : ServerWebSocket := {| handle := 2; data_id := "c-2" |}.

Definition list_accounts : Command :=
  {| type := "list_accounts"; payload := Js.JObj [] |}.

Definition accounts : Js.value :=
  Js.JObj [("success", Js.JBool true); ("accounts", Js.JArr []);
           ("count", Js.JNum 0)].

(** The first connection accepted and one command in flight as [r1]. *)
Definition in_flight : state :=
  run [Open first "t0" "t0";
       Send list_accounts default_timeout "r1" None] init.

(** A second command in flight as [r2], and a batch of responses. *)
Definition two_in_flight : state :=
  run [Open first "t0" "t0";
       Send list_accounts default_timeout "r1" None;
       Send list_accounts default_timeout "r2" None] init.

Definition answers : list (string * Js.value) :=
  [("r1", accounts); ("r2", Js.JNull)].

Definition heartbeat : Js.value := Js.JObj [("type", Js.JStr "heartbeat")].

End Scenario.

(** ** Vocabulary of the statements about the worker *)

Module WorkerScenario.
Import Worker.

(** Socket [k] is the script's [ws] and is open. *)
Definition connected (k : nat) (s : state) : Prop :=
  ws s = Some k ∧ sockets s !! k = Some OPEN.

(** The frames handed to a socket so far. *)
Definition frame_of (e : effect) : option Js.value :=
  match e with
  | WsSend _ frame => Some frame
  | _ => None
  end.

Definition sent (s : state) : list Js.value := omap frame_of (log s).

(** The state in which [handleCommand] reaches its [sendToCC]: after
    the await when a handler is run, at once otherwise (and when the
    command cannot be logged, in which case no handler is run). *)
Definition at_reply (command : Js.value) (meanwhile : state → state)
    (s : state) : state :=
  if Js.stringifiable (Js.get "type" command) &&
     Js.stringifiable (Js.get "requestId" command)
  then
    match route (Js.get "type" command) with
    | Some _ => meanwhile s
    | None => s
    end
  else s.





(** The worker after its first connection has opened. *)
Definition online : state := run [OnOpen 0 "addon" "t0"] (boot false).


Definition frobnicate : Js.value :=
  Js.JObj [("type", Js.JStr "frobnicate"); ("requestId", Js.JStr "r2")].

Definition no_accounts : Js.value :=
  Js.JObj [("success", Js.JBool true); ("accounts", Js.JArr []);
           ("count", Js.JNum 0)].

(** An executor that finds no account, whatever the command. *)
Definition idle_executor (h : handler) (payload : Js.value) : outcome :=
  Returns no_accounts.



(** The connection drops, the retry five seconds later fails too. *)
Definition failed_retry : list event :=
  [OnOpen 0 "addon" "t0"; OnClose 0;
   TimeoutFires 2 false; OnError 1; OnClose 1].

(** The reconnect timer is armed. *)
Definition reconnect_armed (s : state) : Prop :=
  ∃ t, timeouts s !! t = Some RECONNECT_INTERVAL.

(** The invariant of the reconnect timer: whatever timeout is armed is the one [reconnectTimeout] names,
    with the reconnect delay; timer ids are positive and below the
    next id. *)
Record tidy (s : state) : Prop := {
  tidy_armed : ∀ t d, timeouts s !! t = Some d →
    reconnectTimeout s = Some t ∧ d = RECONNECT_INTERVAL;
  tidy_named : ∀ t, reconnectTimeout s = Some t → (1 ≤ t < next_id s)%nat;
  tidy_next : (1 ≤ next_id s)%nat;
}.

End WorkerScenario.

(** ** Vocabulary of the statement about the front-end *)

Module FrontEndScenario.

(** A [read_email] result with an HTML body. *)
Definition html_mail : Js.value :=
  Js.JObj [("success", Js.JBool true);
           ("message",
            Js.JObj [("id", Js.JNum 7);
                     ("subject", Js.JStr "Hello");
                     ("body", Js.JStr "<h1>Hello</h1>");
                     ("isHtml", Js.JBool true);
                     ("read", Js.JBool false)])].

(** A converter that knows one document and throws on any other. *)
Definition heading_only (html : string) : string + Js.error :=
  if String.eqb html "<h1>Hello</h1>" then inl "# Hello"
  else inr (Js.Error "not a heading").

End FrontEndScenario.

(** ** The HTTP side of the server: [fetch] *)

Module Http.
Import Bridge.

(** What [fetch] returns: [undefined] after a successful upgrade, a
    plain response, or a JSON one. *)
Inductive response : Type :=
| Upgraded
| Plain (body : string) (status : Z)
| Json (body : Js.value).

(** The body of the status report.  [uptime] is [process.uptime()]. *)
Definition status (uptime : Js.value) (s : state) : Js.value :=
  Js.JObj [("connected", Js.JBool (bool_decide (currentClient s ≠ None)));
           ("uptime", uptime);
           ("client",
            match currentClient s with
            | Some c => Js.JObj [("id", Js.JStr (id c));
                                 ("addonId", addonId c);
                                 ("connectedAt", Js.JStr (connectedAt c))]
            | None => Js.JNull
            end)].

(** [fetch(req, server)] on the path of the request.  [upgraded] is the
    answer of [server.upgrade]; when it is true the runtime goes on to
    call [websocket.open] with the new socket. *)
Definition fetch (pathname : string) (upgraded : bool) (uptime : Js.value)
    (s : state) : response :=
  if String.eqb pathname "/ws" then
    if upgraded then Upgraded else Plain "WebSocket upgrade failed" 400
  else if String.eqb pathname "/status" then Json (status uptime s)
  else Plain "Thunderbird MCP Server Running" 200.

End Http.

(** ** Vocabulary of further statements about the worker *)

Module WorkerInvariants.
Import Worker WorkerScenario.

(** The script's [ws] is a socket the browser reports open: the test
    of [sendToCC]. *)
Definition online_now (s : state) : bool :=
  match ws s with
  | Some k => match sockets s !! k with Some OPEN => true | _ => false end
  | None => false
  end.

(** The invariant of the heartbeat: whatever interval is armed is the
    one [heartbeatInterval] names, with the heartbeat delay. *)
Record beating (s : state) : Prop := {
  beating_armed : ∀ i d, intervals s !! i = Some d →
    heartbeatInterval s = Some i ∧ d = HEARTBEAT_INTERVAL;
  beating_named : ∀ i, heartbeatInterval s = Some i → (1 ≤ i < next_id s)%nat;
  beating_next : (1 ≤ next_id s)%nat;
}.

(** A socket the browser has not closed yet. *)
Definition live (r : readyState) : Prop := r ≠ CLOSED.

(** The invariant of the connection: at most one socket is live, [ws]
    names it, and no reconnect timer is armed while it lives. *)
Record single (s : state) : Prop := {
  single_live : ∀ k k' r r',
    sockets s !! k = Some r → live r →
    sockets s !! k' = Some r' → live r' → k = k';
  single_ws : ∀ k r, sockets s !! k = Some r → live r → ws s = Some k;
  single_idle : ∀ k r, sockets s !! k = Some r → live r → timeouts s = ∅;
  single_fresh : ∀ k r, sockets s !! k = Some r → (k < next_socket s)%nat;
}.

(** The states the worker can be in: those some run reaches from the
    load of the script. *)
Definition started (s : state) : Prop := ∃ b evs, s = run evs (boot b).

(** The states a run reaches in which every event is one the browser
    can deliver when it comes. *)
Definition delivered (s : state) : Prop :=
  ∃ b evs, s = run evs (boot b) ∧ feasible evs (boot b) = true.

(** A command without a requestId, and one the bridge never sends. *)
Definition anonymous_command : Js.value :=
  Js.JObj [("type", Js.JStr "list_accounts"); ("payload", Js.JObj [])].

End WorkerInvariants.

(** ** Vocabulary of the statements about the two ends together *)

Module WireScenario.
Import Bridge BridgeRun.

(** The bridge with the first connection accepted and nothing in
    flight. *)
Definition accepted : state := run [Open Scenario.first "t0" "t0"] init.

End WireScenario.

(** ** The tool front-end: the [CallToolRequestSchema] handler *)

Module Tools.
Import Bridge.

(** The names in [tools], in order, as [ListToolsRequestSchema]
    returns them. *)
Definition tool_names : list string :=
  ["list_accounts"; "list_folders"; "list_unread_emails"; "search_emails";
   "read_email_raw"; "read_email"; "read_email_attachments"; "send_email";
   "download_attachment"].

(** [args?.k]. *)
Definition arg (k : string) (args : Js.value) : Js.value :=
  if Js.nullish args then Js.JUndefined else Js.get k args.

(** [v || d]. *)
Definition or_else (v d : Js.value) : Js.value := if Js.truthy v then v else d.

(** [args?.includeSpam !== undefined ? args.includeSpam : false]. *)
Definition defined_or_false (v : Js.value) : Js.value :=
  match v with
  | Js.JUndefined => Js.JBool false
  | _ => v
  end.

(** The command each case of the switch sends and the timeout it
    passes; [None] for the default case, which throws. *)
Definition request (name : string) (args : Js.value) : option (Command * Z) :=
  match name with
  | "list_accounts" =>
      Some ({| type := "list_accounts"; payload := Js.JObj [] |}, default_timeout)
  | "list_folders" =>
      Some ({| type := "list_folders";
               payload := Js.JObj [("accountId", arg "accountId" args)] |},
            default_timeout)
  | "list_unread_emails" =>
      Some ({| type := "list_unread_emails";
               payload := Js.JObj
                 [("accountId", arg "accountId" args);
                  ("folderId", arg "folderId" args);
                  ("limit", or_else (arg "limit" args) (Js.JNum 50));
                  ("includeSpam", defined_or_false (arg "includeSpam" args));
                  ("afterDate", arg "afterDate" args)] |},
            default_timeout)
  | "search_emails" =>
      Some ({| type := "search_emails";
               payload := Js.JObj
                 [("query", arg "query" args);
                  ("accountId", arg "accountId" args);
                  ("folderId", arg "folderId" args);
                  ("from", arg "from" args);
                  ("to", arg "to" args);
                  ("subject", arg "subject" args);
                  ("unread", arg "unread" args);
                  ("flagged", arg "flagged" args);
                  ("limit", or_else (arg "limit" args) (Js.JNum 50))] |},
            search_timeout)
  | "read_email_raw" =>
      Some ({| type := "read_email_raw";
               payload := Js.JObj
                 [("messageId", arg "messageId" args);
                  ("markAsRead", or_else (arg "markAsRead" args) (Js.JBool false))] |},
            default_timeout)
  | "read_email" =>
      Some ({| type := "read_email";
               payload := Js.JObj
                 [("messageId", arg "messageId" args);
                  ("markAsRead", or_else (arg "markAsRead" args) (Js.JBool false))] |},
            default_timeout)
  | "read_email_attachments" =>
      Some ({| type := "read_email_attachments";
               payload := Js.JObj [("messageId", arg "messageId" args)] |},
            default_timeout)
  | "send_email" =>
      Some ({| type := "send_email";
               payload := Js.JObj
                 [("to", arg "to" args);
                  ("cc", arg "cc" args);
                  ("bcc", arg "bcc" args);
                  ("subject", arg "subject" args);
                  ("body", arg "body" args);
                  ("isHtml", or_else (arg "isHtml" args) (Js.JBool false));
                  ("accountId", arg "accountId" args)] |},
            default_timeout)
  | "download_attachment" =>
      Some ({| type := "download_attachment";
               payload := Js.JObj
                 [("messageId", arg "messageId" args);
                  ("partName", arg "partName" args)] |},
            default_timeout)
  | _ => None
  end.

(** The outer [catch]: the error result, with the hint when the
    message mentions the missing client. *)
Definition failed (e : Js.error) : FrontEnd.CallToolResult :=
  {| FrontEnd.text :=
       Js.JObj [("error", Js.JStr (Js.message e));
                ("hint",
                 if FrontEnd.includes "No Thunderbird client" (Js.message e)
                 then Js.JStr FrontEnd.hint else Js.JUndefined)];
     FrontEnd.isError := true |}.

(** The plain return: the result as the text of the tool result. *)
Definition passed (result : Js.value) : FrontEnd.CallToolResult :=
  {| FrontEnd.text := result; FrontEnd.isError := false |}.

Definition unknown_tool (name : string) : Js.error :=
  Js.Error ("Unknown tool: " +:+ name).

(** What the handler does to the file system: each is a call,
    recorded whether it returns or throws. *)
Inductive fs_effect : Type :=
| Mkdir (path : string)
| WriteFile (path : string) (data : list Ascii.ascii).

Section Node.

(** The runtime the handler calls into: [turndown]; [Buffer.from(_,
    "base64")]; [path.join] and [path.dirname] on strings, and the
    [TypeError] they throw on anything else; the string a template
    literal makes of a value; and whether [fs.mkdir] and [fs.writeFile]
    throw for a path. *)
Variable turndown : string → string + Js.error.
Variable decode : string → list Ascii.ascii.
Variable join : string → string → string.
Variable dirname : string → string.
Variable path_type_error : Js.value → Js.error.
Variable render : Js.value → string.
Variable mkdir_throws : string → option Js.error.
Variable write_throws : string → option Js.error.

(** The test on one element of [result.attachments]: an object with
    a string [filename] and a string [data]. *)
Definition savable (attachment : Js.value) : option (string * string) :=
  if Js.is_object attachment && Js.truthy attachment &&
     Js.has "filename" attachment && Js.has "data" attachment
  then
    match Js.get "filename" attachment, Js.get "data" attachment with
    | Js.JStr filename, Js.JStr data => Some (filename, data)
    | _, _ => None
    end
  else None.

Definition saved_file (filename filePath : string) (buffer : list Ascii.ascii) : Js.value :=
  Js.JObj [("filename", Js.JStr filename);
           ("path", Js.JStr filePath);
           ("size", Js.JNum (Z.of_nat (length buffer)))].

(** The loop over [result.attachments]: the files saved so far and the
    calls made so far go in, and the loop ends with the error thrown or
    with all files saved. *)
Fixpoint save_all (downloadPath : Js.value) (attachments : list Js.value)
    (savedFiles : list Js.value) (fx : list fs_effect)
    : (Js.error + list Js.value) * list fs_effect :=
  match attachments with
  | [] => (inr savedFiles, fx)
  | attachment :: rest =>
      match savable attachment with
      | None => save_all downloadPath rest savedFiles fx
      | Some (filename, data) =>
          match downloadPath with
          | Js.JStr dir =>
              let filePath := join dir filename in
              let buffer := decode data in
              let fx := fx ++ [Mkdir (dirname filePath)] in
              match mkdir_throws (dirname filePath) with
              | Some e => (inl e, fx)
              | None =>
                  let fx := fx ++ [WriteFile filePath buffer] in
                  match write_throws filePath with
                  | Some e => (inl e, fx)
                  | None =>
                      save_all downloadPath rest
                        (savedFiles ++ [saved_file filename filePath buffer]) fx
                  end
              end
          | _ => (inl (path_type_error downloadPath), fx)
          end
      end
  end.

(** The condition under which [read_email_attachments] saves files. *)
Definition has_attachments (result : Js.value) : option (list Js.value) :=
  if Js.truthy result && Js.is_object result &&
     Js.has "success" result && Js.truthy (Js.get "success" result) &&
     Js.has "attachments" result
  then
    match Js.get "attachments" result with
    | Js.JArr attachments => Some attachments
    | _ => None
    end
  else None.

Definition read_email_attachments (args result : Js.value)
    : FrontEnd.CallToolResult * list fs_effect :=
  match has_attachments result with
  | Some attachments =>
      let downloadPath := arg "downloadPath" args in
      match save_all downloadPath attachments [] [] with
      | (inr savedFiles, fx) =>
          (passed
             (Js.JObj
                [("success", Js.JBool true);
                 ("message",
                  Js.JStr ("Downloaded " +:+
                           render (Js.JNum (Z.of_nat (length savedFiles))) +:+
                           " attachment(s) to " +:+ render downloadPath));
                 ("files", Js.JArr savedFiles)]),
           fx)
      | (inl e, fx) => (failed e, fx)
      end
  | None => (passed result, [])
  end.

(** The condition under which [download_attachment] saves the file. *)
Definition has_data (result : Js.value) : option string :=
  if Js.truthy result && Js.is_object result &&
     Js.has "success" result && Js.truthy (Js.get "success" result) &&
     Js.has "data" result
  then
    match Js.get "data" result with
    | Js.JStr data => Some data
    | _ => None
    end
  else None.

Definition download_attachment (args result : Js.value)
    : FrontEnd.CallToolResult * list fs_effect :=
  match has_data result with
  | Some data =>
      let downloadPath := arg "downloadPath" args in
      let buffer := decode data in
      let filename :=
        if Js.has "filename" result && Js.is_string (Js.get "filename" result)
        then Js.get "filename" result else Js.JStr "attachment" in
      match downloadPath with
      | Js.JStr file =>
          match mkdir_throws (dirname file) with
          | Some e => (failed e, [Mkdir (dirname file)])
          | None =>
              match write_throws file with
              | Some e =>
                  (failed e, [Mkdir (dirname file); WriteFile file buffer])
              | None =>
                  (passed
                     (Js.JObj
                        [("success", Js.JBool true);
                         ("message",
                          Js.JStr ("Attachment saved to " +:+ render downloadPath));
                         ("filename", filename);
                         ("size", Js.JNum (Z.of_nat (length buffer)))]),
                   [Mkdir (dirname file); WriteFile file buffer])
              end
          end
      | _ => (failed (path_type_error downloadPath), [])
      end
  | None => (passed result, [])
  end.

(** What the handler returns, and what it does to the file system,
    once the promise of [sendCommandToThunderbird] is settled.  [name]
    is a tool of the switch. *)
Definition respond (name : string) (args : Js.value) (settled : settlement)
    : FrontEnd.CallToolResult * list fs_effect :=
  match settled with
  | Rejected e => (failed e, [])
  | Fulfilled result =>
      match name with
      | "read_email" => (passed (FrontEnd.to_markdown turndown result), [])
      | "read_email_attachments" => read_email_attachments args result
      | "download_attachment" => download_attachment args result
      | _ => (passed result, [])
      end
  end.

(** The handler on a bridge in state [s]: the command goes to
    [sendCommandToThunderbird] with a fresh [requestId]; [outcome] is
    how the promise it returns has been settled when the handler
    resumes.  An unknown name throws before anything is sent. *)
Definition call_tool (name : string) (args : Js.value) (requestId : string)
    (throws : option Js.error) (s : state)
    : option nat * state :=
  match request name args with
  | Some (command, delay) =>
      let r := sendCommandToThunderbird command delay requestId throws s in
      (Some r.1, r.2)
  | None => (None, s)
  end.

End Node.

End Tools.

(** ** The worker's handlers: [background_handlers.js] *)

Module Handlers.

(** A [MessagePart] of the mail API: every field is optional. *)
Inductive MessagePart : Type :=
  mkPart {
    contentType : option string;
    body : option string;
    parts : option (list MessagePart);
  }.

(** ToBoolean of an optional string. *)
Definition present (o : option string) : bool :=
  match o with
  | Some s => negb (String.eqb s "")
  | None => false
  end.

(** [o && o.startsWith(prefix)]. *)
Definition startsWith (prefix : string) (o : option string) : bool :=
  match o with
  | Some s => present o && String.prefix prefix s
  | None => false
  end.

(** The two tests [extractTextFromPart] makes on the part itself,
    plain text first. *)
Definition own_text (part : MessagePart) : option (string * bool) :=
  if startsWith "text/plain" (contentType part) && present (body part)
  then Some (default "" (body part), false)
  else if startsWith "text/html" (contentType part) && present (body part)
  then Some (default "" (body part), true)
  else None.

(** [extractTextFromPart(part)]: the text and whether it is HTML, or
    [None] for [null]. *)
Fixpoint extractTextFromPart (part : MessagePart) : option (string * bool) :=
  match own_text part with
  | Some extracted => Some extracted
  | None =>
      match part with
      | mkPart _ _ (Some subparts) =>
          (fix loop (l : list MessagePart) : option (string * bool) :=
             match l with
             | [] => None
             | subpart :: rest =>
                 match extractTextFromPart subpart with
                 | Some extracted => Some extracted
                 | None => loop rest
                 end
             end) subparts
      | mkPart _ _ None => None
      end
  end.

(** The part and all parts below it, in document order. *)
Fixpoint preorder (part : MessagePart) : list MessagePart :=
  part ::
  match part with
  | mkPart _ _ (Some subparts) =>
      (fix below (l : list MessagePart) : list MessagePart :=
         match l with
         | [] => []
         | subpart :: rest => preorder subpart ++ below rest
         end) subparts
  | mkPart _ _ None => []
  end.

(** The fields of a [MessageHeader] that [handleReadEmail] reads,
    each as the data [JSON.stringify] prints for it ([date] as the
    string of its [toJSON]); a field the API leaves out reads
    [undefined]. *)
Record MessageHeader : Type := {
  id : Js.value;
  date : Js.value;
  subject : Js.value;
  author : Js.value;
  recipients : Js.value;
  ccList : Js.value;
  read : Js.value;
  flagged : Js.value;
}.

(** [const { k = d } = payload || {}]. *)
Definition field (k : string) (d : Js.value) (payload : Js.value) : Js.value :=
  match Js.get k payload with
  | Js.JUndefined => d
  | v => v
  end.

(** Whether [handleReadEmail] calls [browser.messages.update]. *)
Definition marks_read (payload : Js.value) (message : MessageHeader) : bool :=
  Js.truthy (field "markAsRead" (Js.JBool false) payload) &&
  negb (Js.truthy (read message)).

(** [handleReadEmail(payload)], given what [browser.messages.get] and
    [getFull] return. *)
Definition handleReadEmail (payload : Js.value) (message : MessageHeader)
    (full : MessagePart) : Js.value :=
  let markAsRead := field "markAsRead" (Js.JBool false) payload in
  let extracted := extractTextFromPart full in
  let bodyContent := match extracted with Some (t, _) => t | None => "" end in
  let isHtml := match extracted with Some (_, h) => h | None => false end in
  Js.JObj
    [("success", Js.JBool true);
     ("message",
      Js.JObj [("id", id message);
               ("date", date message);
               ("subject", subject message);
               ("from", author message);
               ("to", recipients message);
               ("cc", ccList message);
               ("body", Js.JStr bodyContent);
               ("isHtml", Js.JBool isHtml);
               ("read", if Js.truthy markAsRead then Js.JBool true else read message);
               ("flagged", flagged message)])].

(** A [MailFolder] of the mail API, with the folders below it. *)
Inductive MailFolder : Type :=
  mkFolder {
    folder_id : string;
    name : string;
    path : string;
    type : option string;
    specialUse : option (list string);
    subFolders : list MailFolder;
  }.

(** The folders below a folder, in document order. *)
Fixpoint descendants (folder : MailFolder) : list MailFolder :=
  match folder with
  | mkFolder _ _ _ _ _ subs =>
      (fix below (l : list MailFolder) : list MailFolder :=
         match l with
         | [] => []
         | sub :: rest => sub :: descendants sub ++ below rest
         end) subs
  end.

(** The number of folders in a tree, and in a stack of trees. *)
Fixpoint folders_in (folder : MailFolder) : nat :=
  match folder with
  | mkFolder _ _ _ _ _ subs =>
      S ((fix below (l : list MailFolder) : nat :=
            match l with
            | [] => 0
            | sub :: rest => folders_in sub + below rest
            end) subs)
  end.

Definition folders_among (l : list MailFolder) : nat :=
  foldr (λ folder n, folders_in folder + n) 0 l.

(** A value together with the proof that it is the value: what a
    definition by cases on a computed value matches on. *)
Definition inspect {A} (a : A) : {b | a = b} := exist _ a eq_refl.

(** *** The listing by an explicit stack *)

(** The [while] loop of [getAllFoldersForAccount]: [pop] takes the last
    element of [exploring]; its subfolders are pushed on [exploring]
    and on [folders]. *)
Equations? explore (exploring folders : list MailFolder) : list MailFolder
  by wf (folders_among exploring) lt :=
  explore exploring folders with inspect (last exploring) := {
    | exist _ None _ := folders
    | exist _ (Some folder) popped :=
        explore (removelast exploring ++ subFolders folder)
                (folders ++ subFolders folder) }.
Proof.
  assert (exploring = removelast exploring ++ [folder]) as Hsplit.
  { destruct (decide (exploring = [])) as [->|Hne]; [done|].
    rewrite (app_removelast_last folder Hne) at 1. do 2 f_equal.
    revert popped. clear. induction exploring as [|a [|b l] IH]; simpl; try done.
    by intros [= ->]. }
  rewrite Hsplit at 2. clear.
  assert (∀ l l', folders_among (l ++ l') = folders_among l + folders_among l')
    as Happ by (intros l l'; induction l; simpl; lia).
  rewrite !Happ. simpl. destruct folder as [? ? ? ? ? subs]. simpl.
  assert ((fix below (l : list MailFolder) : nat :=
             match l with
             | [] => 0
             | sub :: rest => folders_in sub + below rest
             end) subs = folders_among subs) as ->
    by (induction subs as [|g r IH]; simpl; [done | by rewrite IH]).
  lia.
Qed.

(** [getAllFoldersForAccount(accountId)] of the version that walks an
    explicit stack, given the [rootFolder] of the account that
    [browser.accounts.get(accountId, true)] returns. *)
Definition getAllFoldersForAccount_stack (rootFolder : option MailFolder)
    : list MailFolder :=
  match rootFolder with
  | Some root =>
      if negb (String.eqb (folder_id root) "") then explore [root] [] else []
  | None => []
  end.

(** *** The listing by recursion over the API *)

Section Api.

(** Whether [browser.folders.get] and [browser.folders.getSubFolders]
    throw for a folder id. *)
Variable get_throws : string → bool.
Variable getSubFolders_throws : string → bool.

(** [traverse(folder.id)]: what it pushes on [folders]. *)
Fixpoint traverse (folder : MailFolder) : list MailFolder :=
  match folder with
  | mkFolder fid _ _ _ _ subs =>
      if get_throws fid then []
      else
        folder ::
        (if getSubFolders_throws fid then []
         else
           (fix each (l : list MailFolder) : list MailFolder :=
              match l with
              | [] => []
              | sub :: rest => traverse sub ++ each rest
              end) subs)
  end.

(** [getAllFoldersForAccount(accountId)] of the recursive version;
    [None] when the call for the root's subfolders throws. *)
Definition getAllFoldersForAccount (rootFolder : option MailFolder)
    : option (list MailFolder) :=
  match rootFolder with
  | Some root =>
      if negb (String.eqb (folder_id root) "") then
        if getSubFolders_throws (folder_id root) then None
        else Some (flat_map traverse (subFolders root))
      else Some []
  | None => Some []
  end.

End Api.

(** *** Unread mail *)

Section Unread.

(** [s.toLowerCase()]; the first page [browser.messages.list] returns
    for a folder, if it does not throw; [new Date(v).getTime()], with
    [None] for NaN. *)
Variable toLowerCase : string → string.
Variable list_messages : MailFolder → option (list Js.value).
Variable getTime : Js.value → option Z.

(** The test that skips a folder. *)
Definition isSpamFolder (folder : MailFolder) : bool :=
  bool_decide (type folder = Some "junk") ||
  String.eqb (toLowerCase (name folder)) "spam" ||
  String.eqb (toLowerCase (name folder)) "junk" ||
  String.eqb (toLowerCase (name folder)) "newsletters" ||
  FrontEnd.includes "/spam" (toLowerCase (path folder)) ||
  FrontEnd.includes "/junk" (toLowerCase (path folder)) ||
  FrontEnd.includes "/newsletters" (toLowerCase (path folder)) ||
  match specialUse folder with
  | Some uses => bool_decide ("junk" ∈ uses)
  | None => false
  end.

(** [afterDate ? new Date(afterDate).getTime() : null]. *)
Definition afterTimestamp (afterDate : Js.value) : option Z :=
  if Js.truthy afterDate then getTime afterDate else None.

(** [afterTimestamp] is truthy and [messageTimestamp <= afterTimestamp]. *)
Definition too_old (after : option Z) (message : Js.value) : bool :=
  match after with
  | Some t =>
      negb (t =? 0)%Z &&
      match getTime (Js.get "date" message) with
      | Some m => (m <=? t)%Z
      | None => false
      end
  | None => false
  end.

(** What [limit] is to the comparison [messages.length >= limit]:
    ToNumber of it, a finite number [num / den] (every JSON number is
    one, [null] is zero, a string is the number it spells), an
    infinity, or NaN. *)
Inductive number : Type :=
| Finite (num : Z) (den : positive)
| PlusInfinity
| MinusInfinity
| NaN.

(** [n >= limit], for the length [n] of an array.  [limit] is [None]
    when it cannot be converted at all (an object that hides its
    [toString]): the comparison then throws a [TypeError]. *)
Definition ge (n : nat) (limit : option number) : option bool :=
  match limit with
  | Some (Finite num den) => Some (num <=? Z.of_nat n * Z.pos den)%Z
  | Some MinusInfinity => Some true
  | Some PlusInfinity | Some NaN => Some false
  | None => None
  end.

(** The loop over [page.messages].  It is left by the [break], and
    also when the comparison throws: the [catch] of the folder loop
    takes over, with the message already pushed. *)
Fixpoint scan (limit : option number) (after : option Z)
    (page messages : list Js.value) : list Js.value :=
  match page with
  | [] => messages
  | message :: rest =>
      if negb (Js.truthy (Js.get "read" message)) then
        if too_old after message then scan limit after rest messages
        else
          let messages := messages ++ [message] in
          match ge (length messages) limit with
          | Some false => scan limit after rest messages
          | Some true | None => messages
          end
      else scan limit after rest messages
  end.

(** The loop over the folders of one account.  The comparison after
    the inner loop is inside the [try]: when it throws, or when
    [browser.messages.list] does, the [catch] logs the error and the
    loop goes on with the next folder. *)
Fixpoint each_folder (limit : option number) (includeSpam : Js.value)
    (after : option Z) (folders : list MailFolder) (messages : list Js.value)
    : list Js.value :=
  match folders with
  | [] => messages
  | folder :: rest =>
      if negb (Js.truthy includeSpam) && isSpamFolder folder
      then each_folder limit includeSpam after rest messages
      else
        match list_messages folder with
        | Some page =>
            let messages := scan limit after page messages in
            match ge (length messages) limit with
            | Some true => messages
            | Some false | None =>
                each_folder limit includeSpam after rest messages
            end
        | None => each_folder limit includeSpam after rest messages
        end
  end.

(** The loop over the accounts, each given by the folders searched
    in it.  The comparison that ends it is outside every [try]: when
    it throws, the handler rejects ([None]). *)
Fixpoint each_account (limit : option number) (includeSpam : Js.value)
    (after : option Z) (accounts : list (list MailFolder))
    (messages : list Js.value) : option (list Js.value) :=
  match accounts with
  | [] => Some messages
  | folders :: rest =>
      let messages := each_folder limit includeSpam after folders messages in
      match ge (length messages) limit with
      | Some true => Some messages
      | Some false => each_account limit includeSpam after rest messages
      | None => None
      end
  end.

(** The messages [handleListUnreadEmails] collects. *)
Definition unread_messages (limit : option number)
    (includeSpam afterDate : Js.value) (accounts : list (list MailFolder))
    : option (list Js.value) :=
  each_account limit includeSpam (afterTimestamp afterDate) accounts [].

(** [handleListUnreadEmails(payload)], given the folders searched in
    each account: the object it returns, or [None] when it rejects. *)
Definition handleListUnreadEmails (limit : option number)
    (includeSpam afterDate : Js.value) (accounts : list (list MailFolder))
    : option Js.value :=
  match unread_messages limit includeSpam afterDate accounts with
  | Some messages =>
      Some (Js.JObj [("success", Js.JBool true);
                     ("messages", Js.JArr messages);
                     ("count", Js.JNum (Z.of_nat (length messages)))])
  | None => None
  end.

End Unread.

End Handlers.

(** ** Vocabulary of the statements about the handlers *)

Module HandlersScenario.
Import Handlers.

Definition leaf (i : string) : MailFolder :=
  {| folder_id := i; name := i; path := "/" +:+ i; type := None;
     specialUse := None; subFolders := [] |}.

(** An account with an inbox holding two folders, and a junk folder. *)
Definition mailbox : MailFolder :=
  {| folder_id := "root"; name := "Root"; path := "/"; type := None;
     specialUse := None;
     subFolders :=
       [ {| folder_id := "inbox"; name := "Inbox"; path := "/Inbox";
            type := Some "inbox"; specialUse := None;
            subFolders := [leaf "work"; leaf "home"] |};
         {| folder_id := "junk"; name := "Junk"; path := "/Junk";
            type := Some "junk"; specialUse := None; subFolders := [] |} ] |}.

Definition mail (i : Z) (unread : bool) : Js.value :=
  Js.JObj [("id", Js.JNum i); ("read", Js.JBool (negb unread))].

(** A message whose header has no [ccList], with a single HTML part. *)
Definition no_cc : MessageHeader :=
  {| id := Js.JNum 7;
     date := Js.JStr "2024-01-01T00:00:00.000Z";
     subject := Js.JStr "Hello";
     author := Js.JStr "a@example.org";
     recipients := Js.JArr [Js.JStr "b@example.org"];
     ccList := Js.JUndefined;
     read := Js.JBool false;
     flagged := Js.JBool false |}.

Definition html_part : MessagePart :=
  mkPart (Some "text/html") (Some "<h1>Hello</h1>") None.




(** Three messages in every folder, the second one read. *)
Definition three_each (folder : MailFolder) : option (list Js.value) :=
  Some [mail 1 true; mail 2 false; mail 3 true].

End HandlersScenario.

(** * Properties *)

(** ** Objects *)

Module JsFacts.
Import Js.

Lemma assoc_assign_eq k x fs : assoc k (assign k x fs) = Some x.
Proof.
  induction fs as [|[k' v] rest IH]; simpl.
  - by rewrite String.eqb_refl.
  - destruct (String.eqb k k') eqn:E; simpl; rewrite E; [done | exact IH].
Qed.

Lemma assoc_assign_ne k j x fs : k ≠ j → assoc j (assign k x fs) = assoc j fs.
Proof.
  intros Hne. induction fs as [|[k' v] rest IH]; simpl.
  - destruct (String.eqb j k) eqn:E; [|done].
    apply String.eqb_eq in E. congruence.
  - destruct (String.eqb k k') eqn:E; simpl.
    + apply String.eqb_eq in E. subst k'.
      destruct (String.eqb j k) eqn:E'; [|done].
      apply String.eqb_eq in E'. congruence.
    + by rewrite IH.
Qed.

Lemma assoc_remove_eq k fs : assoc k (remove k fs) = None.
Proof.
  induction fs as [|[k' v] rest IH]; simpl; [done|].
  destruct (String.eqb k k') eqn:E; simpl; [done | by rewrite E].
Qed.

Lemma assoc_remove_ne k j fs : k ≠ j → assoc j (remove k fs) = assoc j fs.
Proof.
  intros Hne. induction fs as [|[k' v] rest IH]; simpl; [done|].
  destruct (String.eqb k k') eqn:E; simpl.
  - apply String.eqb_eq in E. subst k'.
    destruct (String.eqb j k) eqn:E'; [|done].
    apply String.eqb_eq in E'. congruence.
  - by rewrite IH.
Qed.

Lemma get_set_eq k x fs : get k (set k x (JObj fs)) = x.
Proof. simpl. by rewrite assoc_assign_eq. Qed.

Lemma assoc_None k fs : k ∉ fs.*1 → assoc k fs = None.
Proof.
  induction fs as [|[k' v] rest IH]; simpl; [done|].
  rewrite not_elem_of_cons. intros [Hne Hrest].
  destruct (String.eqb k k') eqn:E; [|by apply IH].
  by apply String.eqb_eq in E.
Qed.

(** What the peer reads in an object sent as JSON: under each key the
    value sent, itself as JSON carries it, and nothing under a key
    that held [undefined]. *)
Lemma wire_JObj fs :
  NoDup fs.*1 →
  ∃ fs', wire (JObj fs) = JObj fs' ∧
         ∀ k, assoc k fs' = match assoc k fs with
                            | Some JUndefined | None => None
                            | Some v => Some (wire v)
                            end.
Proof.
  induction fs as [|[k' x] rest IH]; intros Hnd.
  - by exists [].
  - apply NoDup_cons in Hnd as [Hnew Hnd].
    destruct (IH Hnd) as (rest' & Hrest & Hassoc).
    assert (∀ k, String.eqb k k' = true → assoc k rest' = None) as Hhidden.
    { intros k E. apply String.eqb_eq in E. subst k. simpl in Hnew.
      rewrite Hassoc. by rewrite (assoc_None _ _ Hnew). }
    simpl in Hrest. injection Hrest as Hrest.
    destruct x; simpl; rewrite Hrest;
      (eexists; split; [reflexivity|]); intros k; simpl;
      destruct (String.eqb k k') eqn:E; try done; try apply Hassoc;
      by apply Hhidden.
Qed.

Lemma get_wire k fs : NoDup fs.*1 → get k (wire (JObj fs)) = wire (get k (JObj fs)).
Proof.
  intros Hnd. destruct (wire_JObj fs Hnd) as (fs' & -> & Hassoc).
  unfold get. rewrite Hassoc. by destruct (assoc k fs) as [[]|].
Qed.

End JsFacts.

(** ** The correlation invariant *)

Module BridgeFacts.
Import Bridge BridgeRun.

Lemma calls_app l l' : calls (l ++ l') = calls l ++ calls l'.
Proof. apply omap_app. Qed.

Lemma called_snoc s s' p o :
  calls (log s') = calls (log s) ++ [(p, o)] → called s' = called s ++ [p].
Proof. unfold called. intros ->. by rewrite fmap_app. Qed.

Lemma wf_init : wf init.
Proof.
  split; simpl; try (intros; simplify_map_eq; fail).
  - constructor.
  - unfold called. simpl. intros p Hp. by apply elem_of_nil in Hp.
  - intros p o. rewrite lookup_empty. split; [done|].
    intros Hp. by apply elem_of_nil in Hp.
Qed.

(** A step that touches neither the table, the timers, the promises
    nor the calls made keeps the invariant. *)
Lemma wf_frame s s' :
  wf s →
  pendingRequests s' = pendingRequests s → timers s' = timers s →
  promises s' = promises s →
  next_promise s' = next_promise s → next_timer s' = next_timer s →
  calls (log s') = calls (log s) →
  wf s'.
Proof.
  intros [] Hp Ht Hs Hnp Hnt Hc.
  split; unfold called in *; rewrite ?Hp, ?Ht, ?Hs, ?Hnp, ?Hnt, ?Hc; done.
Qed.

Lemma armed_unsettled s t k :
  wf s → timers s !! t = Some k → promises s !! task_promise k = None.
Proof.
  intros Hwf Ht. destruct (promises s !! task_promise k) as [o|] eqn:E; [|done].
  apply (wf_promises _ Hwf) in E.
  exfalso. apply (wf_armed _ Hwf _ _ Ht). unfold called.
  apply list_elem_of_fmap. by exists (task_promise k, o).
Qed.

Lemma pending_unsettled s r e :
  wf s → pendingRequests s !! r = Some e → promises s !! promise e = None.
Proof.
  intros Hwf He. destruct (wf_entry _ Hwf _ _ He) as (k & Hk & _ & <-).
  by eapply armed_unsettled.
Qed.

(** Completing an armed request (its timer goes, the entry under
    its id goes, one call settles its promise) keeps the invariant. *)
Lemma wf_finish s s' t k o :
  wf s → timers s !! t = Some k →
  timers s' = delete t (timers s) →
  pendingRequests s' = delete (task_requestId k) (pendingRequests s) →
  promises s' = <[task_promise k := o]> (promises s) →
  next_promise s' = next_promise s → next_timer s' = next_timer s →
  calls (log s') = calls (log s) ++ [(task_promise k, o)] →
  wf s'.
Proof.
  intros Hwf Hk Ht Hp Hs Hnp Hnt Hc.
  pose proof (called_snoc _ _ _ _ Hc) as Hcd.
  split; rewrite ?Ht, ?Hp, ?Hs, ?Hnp, ?Hnt, ?Hc, ?Hcd.
  - intros r e He. apply lookup_delete_Some in He as [Hne He].
    destruct (wf_entry _ Hwf _ _ He) as (k' & Hk' & Hr & Hpr).
    exists k'. split_and!; [|done..].
    rewrite lookup_delete_ne; [done|]. intros ->. congruence.
  - intros t' k' Hk'. apply lookup_delete_Some in Hk' as [_ Hk'].
    by apply (wf_timer_lt _ Hwf).
  - intros t1 t2 k1 k2 H1 H2. apply lookup_delete_Some in H1 as [_ H1].
    apply lookup_delete_Some in H2 as [_ H2]. by apply (wf_timer_inj _ Hwf).
  - intros t' k' Hk'. apply lookup_delete_Some in Hk' as [Hne Hk'].
    rewrite elem_of_app, list_elem_of_singleton. intros [Hin | Heq].
    + by apply (wf_armed _ Hwf _ _ Hk').
    + apply Hne. symmetry. by apply (wf_timer_inj _ Hwf _ _ _ _ Hk' Hk).
  - apply NoDup_app. split_and!.
    + apply (wf_once _ Hwf).
    + intros p Hin Hp'. apply list_elem_of_singleton in Hp'. subst p.
      by apply (wf_armed _ Hwf _ _ Hk).
    + apply NoDup_singleton.
  - intros p. rewrite elem_of_app, list_elem_of_singleton. intros [Hin | ->].
    + by apply (wf_call_lt _ Hwf).
    + by apply (wf_timer_lt _ Hwf _ _ Hk).
  - intros p o'. rewrite elem_of_app, list_elem_of_singleton.
    destruct (decide (p = task_promise k)) as [-> | Hne].
    + rewrite lookup_insert_eq. split.
      * intros [= ->]. by right.
      * intros [Hin | [= ->]]; [|done].
        apply (wf_promises _ Hwf) in Hin.
        by rewrite (armed_unsettled _ _ _ Hwf Hk) in Hin.
    + rewrite lookup_insert_ne by done. rewrite (wf_promises _ Hwf).
      split; [by left|]. intros [Hin | [= -> ->]]; done.
Qed.

(** Registering a request (a new promise, a new timer for it, the
    entry under its id) keeps the invariant. *)
Lemma wf_register s s' r d :
  wf s →
  timers s' = <[next_timer s := {| task_requestId := r;
                                   task_promise := next_promise s;
                                   task_delay := d |}]> (timers s) →
  pendingRequests s' = <[r := {| promise := next_promise s;
                                 timeout := next_timer s |}]> (pendingRequests s) →
  promises s' = promises s →
  next_promise s' = S (next_promise s) → next_timer s' = S (next_timer s) →
  calls (log s') = calls (log s) →
  wf s'.
Proof.
  intros Hwf Ht Hp Hs Hnp Hnt Hc.
  assert (Hfresh : timers s !! next_timer s = None).
  { destruct (timers s !! next_timer s) as [k|] eqn:E; [|done].
    apply (wf_timer_lt _ Hwf) in E. lia. }
  split; unfold called; rewrite ?Ht, ?Hp, ?Hs, ?Hnp, ?Hnt, ?Hc; fold (called s).
  - intros r' e He. apply lookup_insert_Some in He as [[<- <-] | [Hne He]]; simpl.
    + rewrite lookup_insert_eq. by eexists.
    + destruct (wf_entry _ Hwf _ _ He) as (k' & Hk' & Hr & Hpr).
      exists k'. split_and!; [|done..].
      rewrite lookup_insert_ne; [done|]. intros Heq. congruence.
  - intros t k Hk. apply lookup_insert_Some in Hk as [[<- <-] | [Hne Hk]]; simpl.
    + lia.
    + apply (wf_timer_lt _ Hwf) in Hk. lia.
  - intros t1 t2 k1 k2 H1 H2 Heq.
    apply lookup_insert_Some in H1 as [[<- <-] | [Hne1 H1]];
    apply lookup_insert_Some in H2 as [[<- <-] | [Hne2 H2]]; simpl in *.
    + done.
    + apply (wf_timer_lt _ Hwf) in H2. lia.
    + apply (wf_timer_lt _ Hwf) in H1. lia.
    + by apply (wf_timer_inj _ Hwf _ _ _ _ H1 H2).
  - intros t k Hk. apply lookup_insert_Some in Hk as [[<- <-] | [Hne Hk]]; simpl.
    + intros Hin. apply (wf_call_lt _ Hwf) in Hin. lia.
    + by apply (wf_armed _ Hwf _ _ Hk).
  - apply (wf_once _ Hwf).
  - intros p Hin. apply (wf_call_lt _ Hwf) in Hin. lia.
  - apply (wf_promises _ Hwf).
Qed.

(** Rejecting a promise that was just created keeps the invariant. *)
Lemma wf_settle_new s s' o :
  wf s →
  timers s' = timers s → pendingRequests s' = pendingRequests s →
  promises s' = <[next_promise s := o]> (promises s) →
  next_promise s' = S (next_promise s) → next_timer s' = next_timer s →
  calls (log s') = calls (log s) ++ [(next_promise s, o)] →
  wf s'.
Proof.
  intros Hwf Ht Hp Hs Hnp Hnt Hc.
  pose proof (called_snoc _ _ _ _ Hc) as Hcd.
  assert (Hnew : next_promise s ∉ called s).
  { intros Hin. apply (wf_call_lt _ Hwf) in Hin. lia. }
  split; rewrite ?Ht, ?Hp, ?Hs, ?Hnp, ?Hnt, ?Hc, ?Hcd.
  - apply (wf_entry _ Hwf).
  - intros t k Hk. apply (wf_timer_lt _ Hwf) in Hk. lia.
  - apply (wf_timer_inj _ Hwf).
  - intros t k Hk. rewrite elem_of_app, list_elem_of_singleton. intros [Hin | Heq].
    + by apply (wf_armed _ Hwf _ _ Hk).
    + apply (wf_timer_lt _ Hwf) in Hk. lia.
  - apply NoDup_app. split_and!.
    + apply (wf_once _ Hwf).
    + intros p Hin Hp'. apply list_elem_of_singleton in Hp'. by subst p.
    + apply NoDup_singleton.
  - intros p. rewrite elem_of_app, list_elem_of_singleton. intros [Hin | ->].
    + apply (wf_call_lt _ Hwf) in Hin. lia.
    + lia.
  - intros p o'. rewrite elem_of_app, list_elem_of_singleton.
    destruct (decide (p = next_promise s)) as [-> | Hne].
    + rewrite lookup_insert_eq. split.
      * intros [= ->]. by right.
      * intros [Hin | [= ->]]; [|done].
        exfalso. apply Hnew. unfold called. apply list_elem_of_fmap.
        by exists (next_promise s, o').
    + rewrite lookup_insert_ne by done. rewrite (wf_promises _ Hwf).
      split; [by left|]. intros [Hin | [= -> ->]]; done.
Qed.

Lemma wf_emit e s : call_of e = None → wf s → wf (emit e s).
Proof.
  intros He Hwf. apply (wf_frame s); try done.
  simpl. rewrite calls_app. simpl. unfold calls at 2. simpl. rewrite He.
  by rewrite app_nil_r.
Qed.

Lemma wf_set_currentClient c s : wf s → wf (set_currentClient c s).
Proof. intros Hwf. by apply (wf_frame s). Qed.

Lemma wf_open w connected now s : wf s → wf (open w connected now s).
Proof.
  intros Hwf. unfold open. apply wf_emit; [done|]. apply wf_set_currentClient.
  destruct (currentClient s); [by apply wf_emit | done].
Qed.

Lemma wf_close w s : wf s → wf (close w s).
Proof.
  intros Hwf. unfold close. destruct (currentClient s); [|done].
  case_decide; [by apply wf_set_currentClient | done].
Qed.

Lemma wf_caught w frame throws s : wf s → wf (caught (ws_send w frame throws s)).
Proof.
  intros Hwf. destruct throws; simpl; repeat apply wf_emit; done.
Qed.

Lemma wf_dispatch w c data now throws s : wf s → wf (dispatch w c data now throws s).
Proof.
  intros Hwf. unfold dispatch. destruct (classify _).
  - apply wf_caught. by apply wf_set_currentClient.
  - by apply wf_caught.
  - destruct (Js.truthy _); [|done].
    destruct (Js.get "requestId" data) as [| | | |r| |]; simpl; try done.
    destruct (pendingRequests s !! r) as [e|] eqn:He; [|done].
    destruct (wf_entry _ Hwf _ _ He) as (k & Hk & Hr & Hp).
    apply (wf_finish s _ (timeout e) k (Fulfilled (Js.get "payload" data)));
      try done; simpl.
    + by rewrite Hr.
    + rewrite Hp. by rewrite (pending_unsettled _ _ _ Hwf He).
    + rewrite !calls_app, Hp. simpl. by rewrite app_nil_r.
  - by apply wf_emit.
Qed.

Lemma wf_message w parsed now throws s : wf s → wf (message w parsed now throws s).
Proof.
  intros Hwf. unfold message. destruct (currentClient s) as [c|]; [|done].
  case_decide; [|done]. destruct parsed as [data|]; [|by apply wf_emit].
  destruct (Js.nullish data); [by apply wf_emit | by apply wf_dispatch].
Qed.

Lemma next_promise_unsettled s : wf s → promises s !! next_promise s = None.
Proof.
  intros Hwf. destruct (promises s !! next_promise s) as [o|] eqn:E; [|done].
  apply (wf_promises _ Hwf) in E.
  assert (next_promise s ∈ called s) as Hin.
  { unfold called. apply list_elem_of_fmap. by exists (next_promise s, o). }
  apply (wf_call_lt _ Hwf) in Hin. lia.
Qed.

Lemma next_timer_unarmed s : wf s → timers s !! next_timer s = None.
Proof.
  intros Hwf. destruct (timers s !! next_timer s) as [k|] eqn:E; [|done].
  apply (wf_timer_lt _ Hwf) in E. lia.
Qed.

Lemma wf_sendCommandToThunderbird command delay requestId throws s :
  wf s → wf (sendCommandToThunderbird command delay requestId throws s).2.
Proof.
  intros Hwf. unfold sendCommandToThunderbird. simpl.
  destruct (currentClient s) as [c|] eqn:Hc; simpl.
  - destruct throws as [err|]; simpl.
    + lazymatch goal with
      | |- wf (reject _ _ (set_pendingRequests _ (clearTimeout _ ?s1))) =>
          assert (wf s1) as Hwf1
      end.
      { apply (wf_register s _ requestId delay); try done.
        simpl. rewrite !calls_app. simpl. by rewrite !app_nil_r. }
      eapply (wf_finish _ _ (next_timer s)
               {| task_requestId := requestId; task_promise := next_promise s;
                  task_delay := delay |} (Rejected err) Hwf1); try done; simpl.
      * by rewrite lookup_insert_eq.
      * by rewrite (next_promise_unsettled _ Hwf).
      * rewrite !calls_app. simpl. by rewrite !app_nil_r.
    + apply (wf_register s _ requestId delay); try done.
      simpl. rewrite !calls_app. simpl. by rewrite !app_nil_r.
  - apply (wf_settle_new s _ (Rejected no_client)); try done; simpl.
    + by rewrite (next_promise_unsettled _ Hwf).
    + rewrite !calls_app. done.
Qed.

Lemma wf_timer_fires t s : wf s → wf (timer_fires t s).
Proof.
  intros Hwf. unfold timer_fires. destruct (timers s !! t) as [k|] eqn:Hk; [|done].
  apply (wf_finish s _ t k (Rejected request_timeout)); try done; simpl.
  - by rewrite (armed_unsettled _ _ _ Hwf Hk).
  - by rewrite calls_app.
Qed.

Lemma wf_step s ev : wf s → wf (step s ev).
Proof.
  intros Hwf. destruct ev; simpl.
  - by apply wf_open.
  - by apply wf_message.
  - by apply wf_close.
  - by apply wf_sendCommandToThunderbird.
  - by apply wf_timer_fires.
Qed.

Lemma wf_run evs s : wf s → wf (run evs s).
Proof.
  revert s. induction evs as [|ev evs IH]; intros s Hwf; simpl; [done|].
  apply IH. by apply wf_step.
Qed.

Lemma reachable_wf s : reachable s → wf s.
Proof. intros [evs ->]. apply wf_run, wf_init. Qed.

Lemma reachable_step s ev : reachable s → reachable (step s ev).
Proof.
  intros [evs ->]. exists (evs ++ [ev]). unfold run. by rewrite foldl_app.
Qed.

End BridgeFacts.

(** ** The correlation table *)

Module Correlation.
Import Bridge BridgeRun BridgeFacts Scenario.

Lemma response_to_frame r v :
  response_to r (Worker.response_frame (Js.JStr r) v).
Proof. done. Qed.

Lemma response_not_nullish r data : response_to r data → Js.nullish data = false.
Proof. intros [H _]. by destruct data. Qed.

(** A response that finds its entry: timer cleared, promise
    resolved with the payload, entry deleted, in this order. *)
Lemma message_response_hit w r e data now throws s :
  wf s → current w s → response_to r data → r ≠ "" →
  pendingRequests s !! r = Some e →
  let s' := message w (Some data) now throws s in
  pendingRequests s' = delete r (pendingRequests s) ∧
  timers s' = delete (timeout e) (timers s) ∧
  promises s' = <[promise e := Fulfilled (Js.get "payload" data)]> (promises s) ∧
  currentClient s' = currentClient s ∧
  log s' = log s ++ [ClearTimeout (timeout e);
                     CallResolve (promise e) (Js.get "payload" data)].
Proof.
  intros Hwf (c & Hc & _ & Hid) Hresp Hr He. simpl.
  pose proof (response_not_nullish _ _ Hresp) as Hn. destruct Hresp as [Hty Hrid].
  unfold message. rewrite Hc. rewrite decide_True by done. rewrite Hn.
  unfold dispatch. rewrite Hty, Hrid. simpl.
  destruct (String.eqb r "") eqn:E; [by apply String.eqb_eq in E|]. simpl.
  rewrite He. simpl. rewrite (pending_unsettled _ _ _ Hwf He).
  split_and!; try done. by rewrite <- app_assoc.
Qed.

(** A response that finds no entry changes nothing at all. *)
Lemma message_response_miss w data now throws s :
  classify (Js.get "type" data) = response →
  pending_get (Js.get "requestId" data) s = None →
  message w (Some data) now throws s = s.
Proof.
  intros Hty Hget. unfold message. destruct (currentClient s) as [c|]; [|done].
  case_decide; [|done]. destruct (Js.nullish data) eqn:En; [by destruct data|].
  unfold dispatch. rewrite Hty, Hget. by destruct (Js.truthy _).
Qed.

(** So does one whose [requestId] is falsy. *)
Lemma message_response_falsy w data now throws s :
  classify (Js.get "type" data) = response →
  Js.truthy (Js.get "requestId" data) = false →
  message w (Some data) now throws s = s.
Proof.
  intros Hty Hf. unfold message. destruct (currentClient s) as [c|]; [|done].
  case_decide; [|done]. destruct (Js.nullish data) eqn:En; [by destruct data|].
  unfold dispatch. by rewrite Hty, Hf.
Qed.

(** *** What no event undoes *)

Lemma settle_keeps p o q o' s :
  promises s !! q = Some o' → promises (settle p o s) !! q = Some o'.
Proof.
  intros H. simpl. destruct (promises s !! p) eqn:E; [done|].
  rewrite lookup_insert_ne; [done|]. intros <-. congruence.
Qed.

Lemma pending_delete_promises k s : promises (pending_delete k s) = promises s.
Proof. by destruct k. Qed.

Lemma pending_delete_timers k s : timers (pending_delete k s) = timers s.
Proof. by destruct k. Qed.

Lemma pending_delete_next_timer k s : next_timer (pending_delete k s) = next_timer s.
Proof. by destruct k. Qed.

Lemma caught_promises w frame throws s :
  promises (caught (ws_send w frame throws s)) = promises s.
Proof. by destruct throws. Qed.

Lemma caught_timers w frame throws s :
  timers (caught (ws_send w frame throws s)) = timers s.
Proof. by destruct throws. Qed.

Lemma caught_pendingRequests w frame throws s :
  pendingRequests (caught (ws_send w frame throws s)) = pendingRequests s.
Proof. by destruct throws. Qed.

Lemma caught_next_timer w frame throws s :
  next_timer (caught (ws_send w frame throws s)) = next_timer s.
Proof. by destruct throws. Qed.

(** A settled promise stays as it was settled. *)
Lemma settled_step s ev p o :
  promises s !! p = Some o → promises (step s ev) !! p = Some o.
Proof.
  intros Hp. destruct ev as [w cn now|w parsed now throws|w|cmd d r throws|t]; simpl.
  - unfold open. simpl. by destruct (currentClient s).
  - unfold message. destruct (currentClient s) as [c|]; [|done].
    case_decide; [|done]. destruct parsed as [data|]; [|done].
    destruct (Js.nullish data); [done|]. unfold dispatch.
    destruct (classify _); rewrite ?caught_promises; try done.
    destruct (Js.truthy _); [|done]. destruct (pending_get _ s) as [e|]; [|done].
    rewrite pending_delete_promises. by apply settle_keeps.
  - unfold close. destruct (currentClient s); [|done]. by case_decide.
  - unfold sendCommandToThunderbird. simpl.
    destruct (currentClient s) as [c|]; simpl.
    + destruct throws; simpl; [|done].
      destruct (promises s !! next_promise s) eqn:E; [done|].
      rewrite lookup_insert_ne; [done|]. intros <-. congruence.
    + destruct (promises s !! next_promise s) eqn:E; [done|].
      rewrite lookup_insert_ne; [done|]. intros <-. congruence.
  - unfold timer_fires. destruct (timers s !! t) as [k|]; [|done].
    by apply settle_keeps.
Qed.

Lemma settled_run evs s p o :
  promises s !! p = Some o → promises (run evs s) !! p = Some o.
Proof.
  revert s. induction evs as [|ev evs IH]; intros s Hp; simpl; [done|].
  by apply IH, settled_step.
Qed.

(** Timers are numbered upwards, so one that is gone stays gone. *)
Lemma spent_step s ev t :
  t < next_timer s → timers s !! t = None →
  t < next_timer (step s ev) ∧ timers (step s ev) !! t = None.
Proof.
  intros Hlt Ht. destruct ev as [w cn now|w parsed now throws|w|cmd d r throws|t']; simpl.
  - unfold open. simpl. by destruct (currentClient s).
  - unfold message. destruct (currentClient s) as [c|]; [|done].
    case_decide; [|done]. destruct parsed as [data|]; [|done].
    destruct (Js.nullish data); [done|]. unfold dispatch.
    destruct (classify _); rewrite ?caught_timers, ?caught_next_timer; try done.
    destruct (Js.truthy _); [|done]. destruct (pending_get _ s) as [e|]; [|done].
    rewrite pending_delete_timers, pending_delete_next_timer. simpl.
    split; [done|]. apply lookup_delete_None. by right.
  - unfold close. destruct (currentClient s); [|done]. by case_decide.
  - unfold sendCommandToThunderbird. simpl.
    destruct (currentClient s) as [c|]; simpl; [|done].
    destruct throws; simpl.
    + split; [lia|]. apply lookup_delete_None. right.
      rewrite lookup_insert_ne; [done|lia].
    + split; [lia|]. rewrite lookup_insert_ne; [done|lia].
  - unfold timer_fires. destruct (timers s !! t') as [k|]; [|done]. simpl.
    split; [done|]. apply lookup_delete_None. by right.
Qed.

Lemma spent_run evs s t :
  t < next_timer s → timers s !! t = None → timers (run evs s) !! t = None.
Proof.
  revert s. induction evs as [|ev evs IH]; intros s Hlt Ht; simpl; [done|].
  destruct (spent_step s ev t Hlt Ht). by apply IH.
Qed.

(** *** Delivering responses *)

Lemma current_message w w' parsed now throws s :
  current w s → current w (message w' parsed now throws s).
Proof.
  intros (c & Hc & Hw & Hid). unfold message. rewrite Hc.
  case_decide; [|by exists c]. destruct parsed as [data|]; [|by exists c].
  destruct (Js.nullish data); [by exists c|]. unfold dispatch.
  destruct (classify _).
  - destruct throws; simpl; by eexists.
  - destruct throws; simpl; by exists c.
  - destruct (Js.truthy _); [|by exists c].
    destruct (pending_get _ s); [|by exists c].
    destruct (Js.get "requestId" data); simpl; by exists c.
  - by exists c.
Qed.

Lemma absent_message w parsed now throws s r :
  pendingRequests s !! r = None →
  pendingRequests (message w parsed now throws s) !! r = None.
Proof.
  intros Hr. unfold message. destruct (currentClient s) as [c|]; [|done].
  case_decide; [|done]. destruct parsed as [data|]; [|done].
  destruct (Js.nullish data); [done|]. unfold dispatch.
  destruct (classify _); rewrite ?caught_pendingRequests; try done.
  destruct (Js.truthy _); [|done]. destruct (pending_get _ s); [|done].
  destruct (Js.get "requestId" data); simpl; try done.
  apply lookup_delete_None. by right.
Qed.

Lemma deliver_settled w now throws rs s p o :
  promises s !! p = Some o → promises (deliver w now throws rs s) !! p = Some o.
Proof.
  revert s. induction rs as [|rv rs IH]; intros s Hp; simpl; [done|].
  apply IH. by apply (settled_step s (Message _ _ _ _)).
Qed.

Lemma deliver_absent w now throws rs s r :
  pendingRequests s !! r = None →
  pendingRequests (deliver w now throws rs s) !! r = None.
Proof.
  revert s. induction rs as [|rv rs IH]; intros s Hp; simpl; [done|].
  by apply IH, absent_message.
Qed.

Lemma wf_deliver w now throws rs s : wf s → wf (deliver w now throws rs s).
Proof.
  revert s. induction rs as [|rv rs IH]; intros s Hwf; simpl; [done|].
  by apply IH, wf_message.
Qed.

Lemma deliver_own w now throws rs r v e s :
  wf s → current w s → NoDup rs.*1 → (r, v) ∈ rs → r ≠ "" →
  pendingRequests s !! r = Some e →
  promises (deliver w now throws rs s) !! promise e = Some (Fulfilled v) ∧
  pendingRequests (deliver w now throws rs s) !! r = None.
Proof.
  revert s. induction rs as [|[r1 v1] rs IH]; intros s Hwf Hcur Hnd Hin Hr He.
  { by apply elem_of_nil in Hin. }
  simpl in Hnd. apply NoDup_cons in Hnd as [Hr1 Hnd]. simpl.
  set (s1 := message w _ now throws s).
  assert (wf s1) as Hwf1 by by apply wf_message.
  assert (current w s1) as Hcur1 by by apply current_message.
  destruct (decide (r1 = r)) as [-> | Hne].
  - assert (v1 = v) as ->.
    { apply elem_of_cons in Hin as [[= ->] | Hin]; [done|].
      exfalso. apply Hr1. apply list_elem_of_fmap. by exists (r, v). }
    destruct (message_response_hit w r e _ now throws s Hwf Hcur
                (response_to_frame r v) Hr He) as (Hp & _ & Hs & _).
    fold s1 in Hp, Hs. split.
    + apply deliver_settled. rewrite Hs. by rewrite lookup_insert_eq.
    + apply deliver_absent. rewrite Hp. by rewrite lookup_delete_eq.
  - apply elem_of_cons in Hin as [[= ? ?] | Hin]; [done|].
    apply IH; try done.
    destruct (pendingRequests s !! r1) as [e1|] eqn:He1.
    + destruct (decide (r1 = "")) as [-> | Hr1e].
      * unfold s1. by rewrite message_response_falsy.
      * destruct (message_response_hit w r1 e1 _ now throws s Hwf Hcur
                    (response_to_frame r1 v1) Hr1e He1) as (Hp & _).
        fold s1 in Hp. rewrite Hp. by rewrite lookup_delete_ne.
    + unfold s1. by rewrite message_response_miss.
Qed.

(** *** Completion *)

Lemma completion s r e s1 o :
  wf s → pendingRequests s !! r = Some e → completes s r e s1 o →
  pendingRequests s1 !! r = None ∧ timers s1 !! timeout e = None ∧
  promises s1 !! promise e = Some o ∧ next_timer s1 = next_timer s ∧ wf s1.
Proof.
  intros Hwf He Hdone.
  destruct (wf_entry _ Hwf _ _ He) as (k & Hk & Hkr & Hkp).
  destruct Hdone as [|w data now throws Hcur Hresp Hr].
  - split_and!; [| | | |by apply wf_timer_fires];
      unfold timer_fires; rewrite Hk; simpl.
    + rewrite Hkr. by rewrite lookup_delete_eq.
    + by rewrite lookup_delete_eq.
    + rewrite Hkp. rewrite (pending_unsettled _ _ _ Hwf He).
      by rewrite lookup_insert_eq.
    + done.
  - destruct (message_response_hit w r e data now throws s Hwf Hcur Hresp Hr He)
      as (Hp & Ht & Hs & _ & _).
    split_and!; [| | | |by apply wf_message].
    + rewrite Hp. by rewrite lookup_delete_eq.
    + rewrite Ht. by rewrite lookup_delete_eq.
    + rewrite Hs. by rewrite lookup_insert_eq.
    + unfold message. destruct Hcur as (c & Hc & _ & Hid). rewrite Hc.
      rewrite decide_True by done.
      rewrite (response_not_nullish _ _ Hresp).
      destruct Hresp as [Hty Hrid]. unfold dispatch. rewrite Hty, Hrid. simpl.
      destruct (String.eqb r ""); simpl; [done|]. by rewrite He.
Qed.

End Correlation.

(** ** The statements about the bridge *)

Module BridgeSpec.
Import Bridge BridgeRun BridgeFacts Scenario Correlation.

Lemma reachable_init : reachable init.
Proof. by exists []. Defined.

Lemma reachable_run evs : reachable (run evs init).
Proof. by exists evs. Defined.

(** C1.  Responses are paired with callers by requestId, whatever the
    order of arrival.  Take any batch [rs] of responses with distinct
    requestIds and any order [rs'] in which they arrive over the
    current connection.  A caller whose request is outstanding under
    [r], and whose response in the batch carries payload [v], has its
    promise fulfilled with [v]; every call ever made on that promise
    is this one; and the entry under [r] has left the table. *)
Theorem responses_pair_by_requestId w now throws rs rs' r v e s :
  reachable s → current w s →
  NoDup rs.*1 → rs' ≡ₚ rs →
  (r, v) ∈ rs → r ≠ "" → pendingRequests s !! r = Some e →
  let s' := deliver w now throws rs' s in
  promises s' !! promise e = Some (Fulfilled v) ∧
  (∀ o, (promise e, o) ∈ calls (log s') → o = Fulfilled v) ∧
  pendingRequests s' !! r = None.
Proof.
  intros Hreach Hcur Hnd Hperm Hin Hr He s'.
  pose proof (reachable_wf _ Hreach) as Hwf.
  assert (NoDup rs'.*1) as Hnd' by by rewrite Hperm.
  assert ((r, v) ∈ rs') as Hin' by by rewrite Hperm.
  destruct (deliver_own w now throws rs' r v e s Hwf Hcur Hnd' Hin' Hr He)
    as [Hp Hgone].
  split_and!; [done| |done].
  intros o Ho. apply (wf_promises _ (wf_deliver w now throws rs' s Hwf)) in Ho.
  fold s' in Ho. unfold s' in *. congruence.
Qed.

(** Two commands in flight as [r1] and [r2]; the responses arrive in
    reverse order. *)
Lemma responses_pair_by_requestId_witness :
  let e := {| promise := 0; timeout := 0 |} in
  let s' := deliver first "t1" None (reverse answers) two_in_flight in
  pendingRequests two_in_flight !! "r1" = Some e ∧
  promises s' !! promise e = Some (Fulfilled accounts) ∧
  (∀ o, (promise e, o) ∈ calls (log s') → o = Fulfilled accounts) ∧
  pendingRequests s' !! "r1" = None.
Proof.
  intros e. split; [vm_compute; reflexivity|].
  refine (responses_pair_by_requestId first "t1" None answers (reverse answers)
            "r1" accounts e two_in_flight _ _ _ _ _ _ _).
  - apply reachable_run.
  - eexists. split; [vm_compute; reflexivity|]. split; reflexivity.
  - apply (bool_decide_unpack _). vm_compute. exact I.
  - apply reverse_Permutation.
  - apply list_elem_of_here.
  - discriminate.
  - vm_compute. reflexivity.
Defined.

(** C2.  With no current connection, [sendCommandToThunderbird]
    rejects the promise it returns with the "No Thunderbird client
    connected" error and does nothing else: the only action is that
    call of [reject] (nothing is handed to a socket, no timer is
    armed), and the table of pending requests is the one it found. *)
Theorem send_without_client command delay requestId throws s :
  reachable s → currentClient s = None →
  let r := sendCommandToThunderbird command delay requestId throws s in
  promises r.2 !! r.1 = Some (Rejected no_client) ∧
  log r.2 = log s ++ [CallReject r.1 no_client] ∧
  pendingRequests r.2 = pendingRequests s ∧
  timers r.2 = timers s ∧
  currentClient r.2 = None.
Proof.
  intros Hreach Hc. pose proof (reachable_wf _ Hreach) as Hwf.
  unfold sendCommandToThunderbird. simpl. rewrite Hc. simpl.
  rewrite (next_promise_unsettled _ Hwf). rewrite lookup_insert_eq. done.
Qed.

Lemma send_without_client_witness :
  let r := sendCommandToThunderbird list_accounts default_timeout "r1" None init in
  reachable init ∧ currentClient init = None ∧
  promises r.2 !! r.1 = Some (Rejected no_client) ∧
  log r.2 = [CallReject 0 no_client] ∧
  pendingRequests r.2 = ∅ ∧
  timers r.2 = ∅ ∧
  currentClient r.2 = None.
Proof.
  split; [exact reachable_init|]. split; [reflexivity|].
  exact (send_without_client list_accounts default_timeout "r1" None init
           reachable_init eq_refl).
Defined.

(** C3.  A request is completed once and the first completion
    stands.  Let the request under [r] be completed, by its deadline
    firing or by a response from the current connection.  Then its
    entry and its timer are gone and its promise is settled
    accordingly; and after any further events whatever, the promise
    is still settled the same way, no promise has had [resolve] or
    [reject] called on it twice, the timer cannot fire any more, and
    a response to [r] that finds no entry leaves the whole state as
    it is. *)
Theorem first_completion_stands s r e s1 o :
  reachable s → pendingRequests s !! r = Some e →
  completes s r e s1 o →
  (pendingRequests s1 !! r = None ∧ timers s1 !! timeout e = None ∧
   promises s1 !! promise e = Some o) ∧
  ∀ later, let s2 := run later s1 in
    promises s2 !! promise e = Some o ∧
    NoDup (called s2) ∧
    timer_fires (timeout e) s2 = s2 ∧
    ∀ w data now throws, response_to r data →
      pendingRequests s2 !! r = None →
      message w (Some data) now throws s2 = s2.
Proof.
  intros Hreach He Hdone. pose proof (reachable_wf _ Hreach) as Hwf.
  destruct (wf_entry _ Hwf _ _ He) as (k & Hk & _).
  destruct (wf_timer_lt _ Hwf _ _ Hk) as [Hlt _].
  destruct (completion s r e s1 o Hwf He Hdone)
    as (Hgone & Hspent & Hset & Hnt & Hwf1).
  split; [done|]. intros later s2. subst s2. split_and!.
  - by apply settled_run.
  - apply wf_once. by apply wf_run.
  - unfold timer_fires. rewrite (spent_run later s1 (timeout e)); [done|lia|done].
  - intros w data now throws [Hty Hrid] Hnone.
    apply message_response_miss; [done|]. by rewrite Hrid.
Qed.

(** The deadline of [r1] fires; the worker's answer comes afterwards. *)
Lemma first_completion_stands_witness :
  let e := {| promise := 0; timeout := 0 |} in
  let s1 := timer_fires (timeout e) in_flight in
  let late := Message first
                (Some (Worker.response_frame (Js.JStr "r1") accounts)) "t1" None in
  pendingRequests in_flight !! "r1" = Some e ∧
  (pendingRequests s1 !! "r1" = None ∧ timers s1 !! timeout e = None ∧
   promises s1 !! promise e = Some (Rejected request_timeout)) ∧
  promises (run [late] s1) !! promise e = Some (Rejected request_timeout).
Proof.
  intros e s1 late.
  assert (pendingRequests in_flight !! "r1" = Some e) as He
    by (vm_compute; reflexivity).
  split; [exact He|].
  destruct (first_completion_stands in_flight "r1" e s1
              (Rejected request_timeout) (reachable_run _) He
              (by_timeout in_flight "r1" e)) as [Hnow Hlater].
  split; [exact Hnow|]. exact (proj1 (Hlater [late])).
Defined.

Lemma current_step w s ev :
  undisturbed w ev → current w s → current w (step s ev).
Proof.
  intros Hev Hcur.
  destruct ev as [w' cn now|w' parsed now throws|w'|cmd d r throws|t]; simpl in *.
  - done.
  - by apply current_message.
  - destruct Hcur as (c & Hc & Hw & Hid). unfold close. rewrite Hc.
    rewrite decide_False by congruence. by exists c.
  - destruct Hcur as (c & Hc & Hw & Hid). unfold sendCommandToThunderbird.
    simpl. rewrite Hc. simpl. destruct throws; simpl; by exists c.
  - destruct Hcur as (c & Hc & Hw & Hid). unfold timer_fires.
    destruct (timers s !! t); simpl; by exists c.
Qed.

Lemma current_run w evs s :
  Forall (undisturbed w) evs → current w s → current w (run evs s).
Proof.
  intros Hevs. revert s. induction Hevs as [|ev evs Hev _ IH]; intros s Hcur; [done|].
  simpl. by apply IH, current_step.
Qed.

(** C4.  The current slot holds at most one client: it is a single
    optional value.  Accepting connection [w] while [old] is current
    first closes [old]'s socket with code 1000 and the reason "New
    client connected", then makes [w] the current client and greets
    it; and when the superseded socket's close event comes, after any
    events that leave [w] in place, [w] still holds the slot. *)
Theorem new_connection_supersedes_old old w connected now s :
  currentClient s = Some old →
  data_id (ws old) ≠ data_id w →
  let s' := open w connected now s in
  log s' = log s ++ [WsClose (ws old) 1000 "New client connected";
                     WsSend w (welcome (data_id w) now)] ∧
  currentClient s' = Some {| ws := w; id := data_id w;
                             addonId := Js.JUndefined;
                             connectedAt := connected |} ∧
  ∀ evs, Forall (undisturbed w) evs →
    current w (close (ws old) (run evs s')).
Proof.
  intros Hold Hne s'. split_and!.
  - unfold s', open. rewrite Hold. simpl. by rewrite <- app_assoc.
  - done.
  - intros evs Hevs. apply (current_step w _ (Close (ws old))); [done|].
    apply current_run; [done|]. by eexists.
Qed.

Lemma new_connection_supersedes_old_witness :
  let old := {| ws := first; id := "c-1"; addonId := Js.JUndefined;
                connectedAt := "t0" |} in
  let s' := open second "t1" "t1" in_flight in
  currentClient in_flight = Some old ∧
  log s' = log in_flight ++ [WsClose first 1000 "New client connected";
                             WsSend second (welcome "c-2" "t1")] ∧
  currentClient s' = Some {| ws := second; id := "c-2";
                             addonId := Js.JUndefined; connectedAt := "t1" |} ∧
  current second (close first s').
Proof.
  intros old s'.
  assert (currentClient in_flight = Some old) as Hold by (vm_compute; reflexivity).
  split; [exact Hold|].
  assert (data_id (ws old) ≠ data_id second) as Hne by discriminate.
  destruct (new_connection_supersedes_old old second "t1" "t1" in_flight Hold Hne)
    as (Hlog & Hcur & Hstale).
  split; [exact Hlog|]. split; [exact Hcur|].
  exact (Hstale [] (Forall_nil_2 _)).
Defined.

(** C8.  A heartbeat frame from the current connection is answered
    on that connection with one frame of type [heartbeat_ack] whose
    payload holds, as [timestamp], the clock reading [now] taken while
    handling it; pending requests, their timers and the promises are
    exactly what they were. *)
Theorem heartbeat_is_acknowledged w data now throws s :
  current w s → Js.get "type" data = Js.JStr "heartbeat" →
  let s' := message w (Some data) now throws s in
  log s' = log s ++
             WsSend w (Js.JObj [("type", Js.JStr "heartbeat_ack");
                                ("payload",
                                 Js.JObj [("timestamp", Js.JStr now)])]) ::
             match throws with
             | None => []
             | Some _ => [ConsoleError "Error processing message from client"]
             end ∧
  pendingRequests s' = pendingRequests s ∧
  size (pendingRequests s') = size (pendingRequests s) ∧
  timers s' = timers s ∧ promises s' = promises s.
Proof.
  intros (c & Hc & _ & Hid) Hty. simpl. unfold message. rewrite Hc.
  rewrite decide_True by done.
  assert (Js.nullish data = false) as -> by by destruct data.
  unfold dispatch. rewrite Hty. simpl.
  destruct throws; simpl; split_and!; try done; by rewrite <- app_assoc.
Qed.

Lemma heartbeat_is_acknowledged_witness :
  let s' := message first (Some heartbeat) "t1" None in_flight in
  current first in_flight ∧
  log s' = log in_flight ++
             [WsSend first (Js.JObj [("type", Js.JStr "heartbeat_ack");
                                     ("payload",
                                      Js.JObj [("timestamp", Js.JStr "t1")])])] ∧
  pendingRequests s' = pendingRequests in_flight ∧
  size (pendingRequests s') = size (pendingRequests in_flight) ∧
  timers s' = timers in_flight ∧ promises s' = promises in_flight.
Proof.
  assert (current first in_flight) as Hcur.
  { eexists. split; [vm_compute; reflexivity|]. split; reflexivity. }
  split; [exact Hcur|].
  exact (heartbeat_is_acknowledged first heartbeat "t1" None in_flight
           Hcur eq_refl).
Defined.

(** C10.  When [ws.send] throws, [sendCommandToThunderbird] undoes
    the registration: with a requestId that was not in the table
    (as a fresh UUID is not), the table and the set of armed timers
    are exactly what they were before the call, the timer it armed is
    cleared, and the promise is rejected with the error thrown. *)
Theorem send_failure_is_undone command delay requestId error c s :
  reachable s → currentClient s = Some c →
  pendingRequests s !! requestId = None →
  let r := sendCommandToThunderbird command delay requestId (Some error) s in
  pendingRequests r.2 = pendingRequests s ∧
  timers r.2 = timers s ∧
  promises r.2 !! r.1 = Some (Rejected error) ∧
  log r.2 = log s ++ [SetTimeout (next_timer s) delay;
                      WsSend (ws c) (command_frame command requestId);
                      ClearTimeout (next_timer s);
                      CallReject r.1 error].
Proof.
  intros Hreach Hc Hfresh. pose proof (reachable_wf _ Hreach) as Hwf.
  unfold sendCommandToThunderbird. simpl. rewrite Hc. simpl. split_and!.
  - rewrite delete_insert_eq. by apply delete_id.
  - rewrite delete_insert_eq. apply delete_id. by apply next_timer_unarmed.
  - rewrite (next_promise_unsettled _ Hwf). by rewrite lookup_insert_eq.
  - by rewrite <- !app_assoc.
Qed.

Lemma send_failure_is_undone_witness :
  let c := {| ws := first; id := "c-1"; addonId := Js.JUndefined;
              connectedAt := "t0" |} in
  let r := sendCommandToThunderbird list_accounts default_timeout "r2"
             (Some (Js.Error "socket closed")) in_flight in
  currentClient in_flight = Some c ∧
  pendingRequests in_flight !! "r2" = None ∧
  pendingRequests r.2 = pendingRequests in_flight ∧
  timers r.2 = timers in_flight ∧
  promises r.2 !! r.1 = Some (Rejected (Js.Error "socket closed")) ∧
  log r.2 = log in_flight ++ [SetTimeout (next_timer in_flight) default_timeout;
                              WsSend (ws c) (command_frame list_accounts "r2");
                              ClearTimeout (next_timer in_flight);
                              CallReject r.1 (Js.Error "socket closed")].
Proof.
  intros c.
  assert (currentClient in_flight = Some c) as Hc by (vm_compute; reflexivity).
  assert (pendingRequests in_flight !! "r2" = None) as Hfresh
    by (vm_compute; reflexivity).
  split; [exact Hc|]. split; [exact Hfresh|].
  exact (send_failure_is_undone list_accounts default_timeout "r2"
           (Js.Error "socket closed") c in_flight (reachable_run _) Hc Hfresh).
Defined.

(** C7, as stated, fails.  With [r1] in flight on the first
    connection, neither the disconnect of that connection nor its
    supersession by a second one abandons the request: the entry
    stays in the table and nothing is called on its promise. *)
Lemma connection_loss_abandons_nothing :
  current first in_flight ∧
  pendingRequests (close first in_flight) !! "r1"
    = Some {| promise := 0; timeout := 0 |} ∧
  promises (close first in_flight) !! 0 = None ∧
  ¬ abandoned in_flight (close first in_flight) ∧
  ¬ abandoned in_flight (open second "t1" "t1" in_flight).
Proof.
  assert (pendingRequests in_flight !! "r1" = Some {| promise := 0; timeout := 0 |})
    as He by (vm_compute; reflexivity).
  split_and!.
  - eexists. split; [vm_compute; reflexivity|]. split; reflexivity.
  - vm_compute. reflexivity.
  - vm_compute. reflexivity.
  - intros H. destruct (H _ _ He) as [Hgone _]. vm_compute in Hgone. discriminate.
  - intros H. destruct (H _ _ He) as [Hgone _]. vm_compute in Hgone. discriminate.
Qed.

(** C7, amended.  Losing the current connection, by disconnect or by
    supersession, leaves the table, the timers and the promises as
    they are: a request in flight stays pending, with its deadline
    armed.  Its entry is destroyed when it is completed afterwards,
    by its deadline firing or by a response from the then current
    connection, and its promise is settled by that completion. *)
Theorem connection_loss_keeps_requests s s' r e :
  reachable s → pendingRequests s !! r = Some e →
  connection_lost s s' →
  (pendingRequests s' = pendingRequests s ∧ timers s' = timers s ∧
   promises s' = promises s ∧ calls (log s') = calls (log s)) ∧
  (promises s' !! promise e = None ∧ is_Some (timers s' !! timeout e)) ∧
  ∀ s1 o, completes s' r e s1 o →
    pendingRequests s1 !! r = None ∧ promises s1 !! promise e = Some o.
Proof.
  intros Hreach He Hlost. pose proof (reachable_wf _ Hreach) as Hwf.
  assert (pendingRequests s' = pendingRequests s ∧ timers s' = timers s ∧
          promises s' = promises s ∧ calls (log s') = calls (log s) ∧ wf s')
    as (Hp & Ht & Hs & Hc & Hwf').
  { destruct Hlost as [w | w connected now].
    - split_and!; [| | | |by apply wf_close];
        unfold close; destruct (currentClient s); try done; by case_decide.
    - split_and!; [| | | |by apply wf_open]; unfold open; simpl;
        destruct (currentClient s); try done.
      + simpl. rewrite !calls_app. simpl. by rewrite !app_nil_r.
      + simpl. rewrite !calls_app. simpl. by rewrite !app_nil_r. }
  split; [done|]. split.
  - rewrite Hs, Ht. split; [by eapply pending_unsettled|].
    destruct (wf_entry _ Hwf _ _ He) as (k & Hk & _). by exists k.
  - intros s1 o Hdone. rewrite <- Hp in He.
    destruct (completion s' r e s1 o Hwf' He Hdone) as (? & _ & ? & _). done.
Qed.

Lemma connection_loss_keeps_requests_witness :
  let e := {| promise := 0; timeout := 0 |} in
  let s' := close first in_flight in
  pendingRequests in_flight !! "r1" = Some e ∧
  (pendingRequests s' = pendingRequests in_flight ∧ timers s' = timers in_flight ∧
   promises s' = promises in_flight ∧ calls (log s') = calls (log in_flight)) ∧
  (promises s' !! promise e = None ∧ is_Some (timers s' !! timeout e)) ∧
  (pendingRequests (timer_fires (timeout e) s') !! "r1" = None ∧
   promises (timer_fires (timeout e) s') !! promise e
     = Some (Rejected request_timeout)).
Proof.
  intros e s'.
  assert (pendingRequests in_flight !! "r1" = Some e) as He
    by (vm_compute; reflexivity).
  split; [exact He|].
  destruct (connection_loss_keeps_requests in_flight s' "r1" e
              (reachable_run _) He (lost_by_disconnect in_flight first))
    as (Hsame & Hpending & Hdone).
  split; [exact Hsame|]. split; [exact Hpending|].
  exact (Hdone _ _ (by_timeout s' "r1" e)).
Defined.

End BridgeSpec.

(** ** The statements about the worker *)

Module WorkerSpec.
Import Worker WorkerScenario.

Lemma sent_emit e s : sent (emit e s) = sent s ++ from_option (λ f, [f]) [] (frame_of e).
Proof.
  unfold sent. simpl. rewrite omap_app. simpl. by destruct (frame_of e).
Qed.

Lemma sendToCC_connected k frame s :
  connected k s → sent (sendToCC frame s).2 = sent s ++ [frame].
Proof.
  intros [Hws Hopen]. unfold sendToCC. rewrite Hws, Hopen. simpl.
  by rewrite sent_emit.
Qed.









(** A requestId that cannot be printed: the handler throws on its
    first line, before the [try], and the command is never answered. *)
Example unprintable_requestId_unanswered :
  let command := Js.JObj [("type", Js.JStr "list_accounts");
                          ("requestId", Js.JObj [("toString", Js.JNum 1)])] in
  Js.truthy (Js.get "requestId" command) = true ∧
  handleCommand command idle_executor (λ s, s) online = online.
Proof. split; reflexivity. Qed.

Example unknown_command_frame :
  sent (handleCommand frobnicate idle_executor (λ s, s) online) =
  sent online ++
  [Js.JObj [("type", Js.JStr "response");
            ("requestId", Js.JStr "r2");
            ("payload", Js.JObj [("success", Js.JBool false);
                                 ("error", Js.JStr "Unknown command type");
                                 ("commandType", Js.JStr "frobnicate")])]].
Proof. vm_compute. reflexivity. Qed.

(** *** Reconnection *)

Lemma tidy_truthy s t : tidy s → reconnectTimeout s = Some t →
  truthy_id (reconnectTimeout s) = true.
Proof.
  intros Ht Hr. rewrite Hr. simpl. apply (tidy_named _ Ht) in Hr.
  destruct t; [lia|done].
Qed.

Lemma tidy_falsy s : tidy s → truthy_id (reconnectTimeout s) = false →
  timeouts s = ∅.
Proof.
  intros Ht Hf. apply map_empty. intros t.
  destruct (timeouts s !! t) as [d|] eqn:E; [|done].
  apply (tidy_armed _ Ht) in E as [Hr _].
  by rewrite (tidy_truthy _ _ Ht Hr) in Hf.
Qed.

Lemma tidy_sendToCC frame s : tidy s → tidy (sendToCC frame s).2.
Proof.
  intros []. unfold sendToCC.
  destruct (ws s) as [k|]; [destruct (sockets s !! k) as [[]|]|]; by split.
Qed.

Lemma tidy_connectToCC b s : tidy s → timeouts s = ∅ → tidy (connectToCC b s).
Proof.
  intros [Ha Hn Hx] He. unfold connectToCC. destruct b; simpl.
  - split; simpl.
    + intros t d. rewrite He. rewrite lookup_insert_Some, lookup_empty.
      intros [[<- <-] | [_ ?]]; done.
    + intros t [= <-]. lia.
    + lia.
  - by split.
Qed.

Lemma tidy_boot b : tidy (boot b).
Proof.
  apply tidy_connectToCC; [|done]. split; simpl; [|done|lia].
  intros t d. by rewrite lookup_empty.
Qed.

Lemma tidy_onopen k addonId now s : tidy s → tidy (onopen k addonId now s).
Proof.
  intros Ht. unfold onopen.
  set (s1 := (sendToCC _ (set_readyState k OPEN s)).2).
  assert (tidy s1) as Ht1.
  { apply tidy_sendToCC. destruct Ht. by split. }
  set (s2 := if truthy_id (heartbeatInterval s1)
             then clearInterval (heartbeatInterval s1) s1 else s1).
  assert (tidy s2) as Ht2.
  { unfold s2. destruct (truthy_id _); [|done]. destruct Ht1.
    unfold clearInterval. destruct (heartbeatInterval s1); by split. }
  clearbody s2. clear s1 Ht1. simpl.
  destruct (truthy_id (reconnectTimeout s2)) eqn:Htr.
  - destruct (reconnectTimeout s2) as [t|] eqn:Hr; [|done]. destruct Ht2 as [Ha Hn Hx].
    split; simpl.
    + intros t' d. rewrite lookup_delete_Some. intros [Hne Ht'].
      apply Ha in Ht' as [Hr' _]. congruence.
    + done.
    + lia.
  - pose proof (tidy_falsy _ Ht2 Htr) as He. destruct Ht2 as [Ha Hn Hx].
    split; simpl.
    + intros t d. rewrite He. by rewrite lookup_empty.
    + intros t Hr. apply Hn in Hr. lia.
    + lia.
Qed.

Lemma tidy_onclose k s : tidy s → tidy (onclose k s).
Proof.
  intros Ht. unfold onclose.
  set (s1 := set_ws None (set_readyState k CLOSED s)).
  assert (tidy s1) as Ht1 by (destruct Ht; by split).
  set (s2 := if truthy_id (heartbeatInterval s1)
             then set_heartbeatInterval None (clearInterval (heartbeatInterval s1) s1)
             else s1).
  assert (tidy s2) as Ht2.
  { unfold s2. destruct (truthy_id _); [|done]. destruct Ht1.
    unfold clearInterval. destruct (heartbeatInterval s1); by split. }
  clearbody s2. clear s1 Ht1.
  destruct (truthy_id (reconnectTimeout s2)) eqn:Htr; simpl; [done|].
  pose proof (tidy_falsy _ Ht2 Htr) as He. destruct Ht2 as [Ha Hn Hx].
  split; simpl.
  - intros t d. rewrite He. rewrite lookup_insert_Some, lookup_empty.
    intros [[<- <-] | [_ ?]]; done.
  - intros t [= <-]. lia.
  - lia.
Qed.

Lemma tidy_timeout_fires t b s : tidy s → tidy (timeout_fires t b s).
Proof.
  intros Ht. unfold timeout_fires. destruct (timeouts s !! t) as [d|] eqn:E; [|done].
  destruct Ht as [Ha Hn Hx]. apply tidy_connectToCC; simpl.
  - split; simpl; [|done..].
    intros t' d'. rewrite lookup_delete_Some. intros [_ Ht']. by apply Ha.
  - apply map_empty. intros t'. apply lookup_delete_None.
    destruct (decide (t = t')) as [|Hne]; [by left|right].
    destruct (timeouts s !! t') as [d'|] eqn:E'; [|done].
    apply Ha in E as [E _]. apply Ha in E' as [E' _]. congruence.
Qed.

Lemma tidy_step s ev : tidy s → tidy (step s ev).
Proof.
  intros Ht. destruct ev; simpl.
  - by apply tidy_onopen.
  - by apply tidy_onclose.
  - destruct Ht. by split.
  - by apply tidy_timeout_fires.
  - unfold interval_fires. destruct (intervals s !! i); [|done].
    by apply tidy_sendToCC.
Qed.

Lemma tidy_run evs s : tidy s → tidy (run evs s).
Proof.
  revert s. induction evs as [|ev evs IH]; intros s Ht; simpl; [done|].
  by apply IH, tidy_step.
Qed.

(** At no point of any run are two reconnect timers armed, whatever the events and however often a
    close event is repeated; and an armed one has the five-second
    delay. *)
Lemma reconnect_timer_unique b evs t t' d d' :
  let s := run evs (boot b) in
  timeouts s !! t = Some d → timeouts s !! t' = Some d' →
  t = t' ∧ d = RECONNECT_INTERVAL.
Proof.
  intros s Ht Ht'. pose proof (tidy_run evs _ (tidy_boot b)) as Hs. fold s in Hs.
  apply (tidy_armed _ Hs) in Ht as [Hr ->].
  apply (tidy_armed _ Hs) in Ht' as [Hr' _]. split; congruence.
Qed.

(** C6 fails on the code.  The worker is online, the connection
    drops, the retry fires five seconds later and fails as well.
    Every event is one the browser can deliver.  After the second
    close no reconnect timer is armed, although two connection
    attempts only have been made: [reconnectTimeout] still holds the
    id of the timer that has fired, so the guard of [onclose] skips
    the scheduling.  Nothing can happen to the worker any more. *)
Theorem reconnect_stops_after_failed_retry :
  let s := run failed_retry (boot false) in
  feasible failed_retry (boot false) = true ∧
  ws s = None ∧ reconnectTimeout s = Some 2 ∧
  attempts s = [0; 1] ∧
  timeouts s = ∅ ∧ ¬ reconnect_armed s ∧
  ∀ ev, enabled s ev = false.
Proof.
  intros s.
  assert (timeouts s = ∅) as Ht by (vm_compute; reflexivity).
  assert (intervals s = ∅) as Hi by (vm_compute; reflexivity).
  assert (sockets s = <[1 := CLOSED]> (<[0 := CLOSED]> ∅)) as Hs
    by (vm_compute; reflexivity).
  split; [vm_compute; reflexivity|].
  split; [vm_compute; reflexivity|].
  split; [vm_compute; reflexivity|].
  split; [vm_compute; reflexivity|].
  split; [exact Ht|]. split.
  - intros [t Harmed]. rewrite Ht in Harmed. by rewrite lookup_empty in Harmed.
  - assert (∀ k, sockets s !! k = None ∨ sockets s !! k = Some CLOSED) as Hk.
    { intros k. rewrite Hs.
      destruct (decide (k = 1)) as [->|]; [right; by rewrite lookup_insert_eq|].
      rewrite lookup_insert_ne by done.
      destruct (decide (k = 0)) as [->|]; [right; by rewrite lookup_insert_eq|].
      rewrite lookup_insert_ne by done. by left. }
    intros [k ? ?|k|k|t ?|i]; unfold enabled.
    + by destruct (Hk k) as [-> | ->].
    + by destruct (Hk k) as [-> | ->].
    + by destruct (Hk k) as [-> | ->].
    + rewrite Ht, lookup_empty. apply bool_decide_eq_false. by intros [? ?].
    + rewrite Hi, lookup_empty. apply bool_decide_eq_false. by intros [? ?].
Qed.

End WorkerSpec.

(** ** The statement about the front-end *)

Module FrontEndSpec.
Import FrontEnd FrontEndScenario.

Lemma assign_same k x fs : Js.assoc k fs = Some x → Js.assign k x fs = fs.
Proof.
  induction fs as [|[k' v] rest IH]; simpl; [done|].
  destruct (String.eqb k k'); [by intros [= ->]|]. intros H. by rewrite IH.
Qed.

Lemma get_is_Some k fs v :
  Js.get k (Js.JObj fs) = v → v ≠ Js.JUndefined → Js.assoc k fs = Some v.
Proof. simpl. destruct (Js.assoc k fs); simpl; congruence. Qed.

Section Turndown.

Variable turndown : string → string + Js.error.

(** C9.  Let a [read_email] result carry a [success] field and a
    message object whose [isHtml] is truthy and whose [body] is the
    string [html] (every successful result with an HTML body is
    one).  If the conversion returns markdown, the message's body
    is that markdown, the [isHtml] key is gone, and all other
    fields of the message and of the result are as they were.  If
    the conversion throws, the result is returned as it came, body
    and flag included.  In both cases the call returns a result
    that is not flagged as an error. *)
Theorem html_body_becomes_markdown result mfields html :
  Js.has "success" result = true →
  Js.get "message" result = Js.JObj mfields →
  Js.truthy (Js.get "isHtml" (Js.JObj mfields)) = true →
  Js.get "body" (Js.JObj mfields) = Js.JStr html →
  let out := to_markdown turndown result in
  read_email turndown (Bridge.Fulfilled result)
    = {| text := out; isError := false |} ∧
  match turndown html with
  | inl markdown =>
      Js.get "body" (Js.get "message" out) = Js.JStr markdown ∧
      Js.has "isHtml" (Js.get "message" out) = false ∧
      (∀ k, k ≠ "body" → k ≠ "isHtml" →
         Js.get k (Js.get "message" out) = Js.get k (Js.JObj mfields)) ∧
      (∀ k, k ≠ "message" → Js.get k out = Js.get k result)
  | inr _ => out = result
  end.
Proof.
  intros Hsucc Hmsg Hflag Hbody out. split; [done|].
  destruct result as [| | | | | |rfields]; try done.
  pose proof (get_is_Some _ _ _ Hmsg) as Hm. specialize (Hm ltac:(done)).
  pose proof (get_is_Some _ _ _ Hbody) as Hb. specialize (Hb ltac:(done)).
  assert (Js.assoc "isHtml" mfields ≠ None) as Hf.
  { intros E. simpl in Hflag. by rewrite E in Hflag. }
  assert (html_message (Js.JObj rfields) = true) as Hcond.
  { unfold html_message. rewrite Hsucc, Hmsg, Hflag. simpl. rewrite Hm. simpl.
    rewrite andb_true_r. apply bool_decide_eq_true.
    by destruct (Js.assoc "isHtml" mfields). }
  assert (convert turndown (Js.JObj mfields) =
          match turndown html with
          | inl markdown =>
              Js.delete "isHtml" (Js.set "body" (Js.JStr markdown) (Js.JObj mfields))
          | inr _ => Js.JObj mfields
          end) as Hconv.
  { unfold convert. rewrite Hbody. unfold Js.has. rewrite Hb.
    by rewrite bool_decide_eq_true_2. }
  unfold out, to_markdown. rewrite Hcond, Hmsg, Hconv.
  destruct (turndown html) as [markdown|err].
  - rewrite JsFacts.get_set_eq. cbn [Js.set Js.delete Js.get Js.has].
    split_and!.
    + rewrite JsFacts.assoc_remove_ne by done.
      by rewrite JsFacts.assoc_assign_eq.
    + rewrite JsFacts.assoc_remove_eq. apply bool_decide_eq_false. by intros [? ?].
    + intros k Hk1 Hk2. rewrite JsFacts.assoc_remove_ne by done.
      by rewrite JsFacts.assoc_assign_ne.
    + intros k Hk. by rewrite JsFacts.assoc_assign_ne.
  - simpl. by rewrite assign_same.
Qed.

End Turndown.

Lemma html_body_becomes_markdown_witness :
  let out := to_markdown heading_only html_mail in
  Js.get "body" (Js.get "message" html_mail) = Js.JStr "<h1>Hello</h1>" ∧
  read_email heading_only (Bridge.Fulfilled html_mail)
    = {| text := out; isError := false |} ∧
  Js.get "body" (Js.get "message" out) = Js.JStr "# Hello" ∧
  Js.has "isHtml" (Js.get "message" out) = false.
Proof.
  intros out. split; [reflexivity|].
  destruct (html_body_becomes_markdown heading_only html_mail _ "<h1>Hello</h1>"
              eq_refl eq_refl eq_refl eq_refl) as (Hret & Hbody & Hflag & _).
  split; [exact Hret|]. split; [exact Hbody | exact Hflag].
Defined.

(** When the converter throws, the HTML comes back untouched. *)
Example conversion_failure_keeps_html :
  let failing := λ _ : string, inr (Js.Error "boom") : string + Js.error in
  read_email failing (Bridge.Fulfilled html_mail)
    = {| text := html_mail; isError := false |}.
Proof. reflexivity. Qed.

End FrontEndSpec.

(** ** More about the bridge *)

Module BridgeMore.
Import Bridge BridgeRun BridgeFacts Scenario Correlation.

(** The status endpoint follows the connection slot.  Once
    connection [w] is accepted it reports the client under the id of
    [w] with no add-on identity yet; once the worker's register frame
    has been handled it reports the identity the worker announced; once
    [w] has disconnected it reports no client. *)
Theorem status_follows_the_slot w connected now addon stamp now' throws uptime s :
  let s1 := open w connected now s in
  let s2 := message w (Some (Worker.register_frame addon stamp)) now' throws s1 in
  let s3 := close w s2 in
  Http.fetch "/status" false uptime s1 =
    Http.Json (Js.JObj [("connected", Js.JBool true); ("uptime", uptime);
                        ("client", Js.JObj [("id", Js.JStr (data_id w));
                                            ("addonId", Js.JUndefined);
                                            ("connectedAt", Js.JStr connected)])]) ∧
  Http.fetch "/status" false uptime s2 =
    Http.Json (Js.JObj [("connected", Js.JBool true); ("uptime", uptime);
                        ("client", Js.JObj [("id", Js.JStr (data_id w));
                                            ("addonId", Js.JStr addon);
                                            ("connectedAt", Js.JStr connected)])]) ∧
  Http.fetch "/status" false uptime s3 =
    Http.Json (Js.JObj [("connected", Js.JBool false); ("uptime", uptime);
                        ("client", Js.JNull)]).
Proof.
  simpl. split_and!.
  - done.
  - unfold message, open. simpl. rewrite decide_True by done. simpl.
    by destruct throws.
  - unfold message, open. simpl. rewrite decide_True by done. simpl.
    unfold close. by destruct throws; simpl; rewrite decide_True.
Qed.

(** Frames from a connection that does not hold the slot are ignored
    altogether: once [w] has superseded [old], whatever arrives from
    [old]'s socket, a response included, leaves the state as it is. *)
Theorem superseded_connection_is_ignored old w connected now parsed now' throws s :
  currentClient s = Some old →
  data_id (ws old) ≠ data_id w →
  let s' := open w connected now s in
  message (ws old) parsed now' throws s' = s'.
Proof.
  intros Hold Hne. simpl. unfold message, open. simpl.
  rewrite decide_False; [done|]. congruence.
Qed.

Lemma superseded_connection_is_ignored_witness :
  let old := {| ws := first; id := "c-1"; addonId := Js.JUndefined;
                connectedAt := "t0" |} in
  let s' := open second "t1" "t1" in_flight in
  let late := Worker.response_frame (Js.JStr "r1") accounts in
  currentClient in_flight = Some old ∧
  message (ws old) (Some late) "t2" None s' = s'.
Proof.
  intros old s' late.
  assert (currentClient in_flight = Some old) as Hold by (vm_compute; reflexivity).
  split; [exact Hold|].
  assert (data_id (ws old) ≠ data_id second) as Hne by discriminate.
  exact (superseded_connection_is_ignored old second "t1" "t1" (Some late) "t2" None
           in_flight Hold Hne).
Defined.

(** The only frame that changes the correlation table is a response
    that finds its entry.  Whatever else arrives (text that does not
    parse, [null], a register or heartbeat frame, an unknown type, a
    response without a pending entry) leaves the table, the timers and
    the promises alone and calls neither [resolve] nor [reject]. *)
Theorem only_an_answer_touches_the_table w parsed now throws s :
  let s' := message w parsed now throws s in
  (pendingRequests s' = pendingRequests s ∧ timers s' = timers s ∧
   promises s' = promises s ∧ calls (log s') = calls (log s)) ∨
  (∃ data r e,
     parsed = Some data ∧ response_to r data ∧ r ≠ "" ∧
     pendingRequests s !! r = Some e ∧
     pendingRequests s' = delete r (pendingRequests s) ∧
     timers s' = delete (timeout e) (timers s) ∧
     calls (log s') =
       calls (log s) ++ [(promise e, Fulfilled (Js.get "payload" data))]).
Proof.
  simpl. unfold message. destruct (currentClient s) as [c|]; [|by left].
  case_decide; [|by left]. destruct parsed as [data|].
  2:{ left. split_and!; try done. simpl. rewrite calls_app. apply app_nil_r. }
  destruct (Js.nullish data) eqn:Hn.
  { left. split_and!; try done. simpl. rewrite calls_app. apply app_nil_r. }
  unfold dispatch. destruct (classify (Js.get "type" data)) eqn:Hty.
  - left. destruct throws; simpl; split_and!; try done;
      rewrite !calls_app; simpl; by rewrite ?app_nil_r.
  - left. destruct throws; simpl; split_and!; try done;
      rewrite !calls_app; simpl; by rewrite ?app_nil_r.
  - destruct (Js.truthy (Js.get "requestId" data)) eqn:Htr; [|by left].
    destruct (Js.get "requestId" data) as [| | | |r| |] eqn:Hrid;
      simpl; try by left.
    destruct (pendingRequests s !! r) as [e|] eqn:He; [|by left].
    right. exists data, r, e. split_and!; try done.
    + intros ->. by simpl in Htr.
    + simpl. rewrite !calls_app. simpl. by rewrite app_nil_r.
  - left. split_and!; try done. simpl. rewrite calls_app. apply app_nil_r.
Qed.

(** In every state the server can reach, every entry of the table has
    its own deadline armed (the timer it names is armed, for this
    requestId and this promise) and its promise is still pending: no
    request is left waiting without a deadline. *)
Theorem every_entry_has_its_deadline s r e :
  reachable s → pendingRequests s !! r = Some e →
  (∃ k, timers s !! timeout e = Some k ∧
        task_requestId k = r ∧ task_promise k = promise e) ∧
  promises s !! promise e = None ∧
  promise e ∉ called s.
Proof.
  intros Hreach He. pose proof (reachable_wf _ Hreach) as Hwf.
  destruct (wf_entry _ Hwf _ _ He) as (k & Hk & Hr & Hp).
  split_and!.
  - by exists k.
  - by eapply pending_unsettled.
  - rewrite <- Hp. by eapply wf_armed.
Qed.

Lemma every_entry_has_its_deadline_witness :
  let e := {| promise := 1; timeout := 1 |} in
  pendingRequests two_in_flight !! "r2" = Some e ∧
  (∃ k, timers two_in_flight !! timeout e = Some k ∧
        task_requestId k = "r2" ∧ task_promise k = promise e) ∧
  promises two_in_flight !! promise e = None ∧
  promise e ∉ called two_in_flight.
Proof.
  intros e.
  assert (pendingRequests two_in_flight !! "r2" = Some e) as He
    by (vm_compute; reflexivity).
  split; [exact He|].
  exact (every_entry_has_its_deadline two_in_flight "r2" e
           (BridgeSpec.reachable_run _) He).
Defined.

(** A call that times out leaves no trace in the table.  With a
    client connected and a requestId not in use, the call arms a timer
    with the caller's delay; when that timer fires, the promise is
    rejected with "Request timeout" and the table and the timers are
    exactly what they were before the call. *)
Theorem timed_out_call_leaves_no_trace command delay requestId c s :
  reachable s → currentClient s = Some c →
  pendingRequests s !! requestId = None →
  let r := sendCommandToThunderbird command delay requestId None s in
  let s' := timer_fires (next_timer s) r.2 in
  timers r.2 !! next_timer s =
    Some {| task_requestId := requestId; task_promise := r.1;
            task_delay := delay |} ∧
  pendingRequests r.2 !! requestId =
    Some {| promise := r.1; timeout := next_timer s |} ∧
  promises s' !! r.1 = Some (Rejected request_timeout) ∧
  pendingRequests s' = pendingRequests s ∧
  timers s' = timers s.
Proof.
  intros Hreach Hc Hfresh. pose proof (reachable_wf _ Hreach) as Hwf.
  unfold sendCommandToThunderbird. simpl. rewrite Hc. simpl.
  unfold timer_fires. simpl. rewrite !lookup_insert_eq. simpl.
  split_and!; try done.
  - rewrite (next_promise_unsettled _ Hwf). by rewrite lookup_insert_eq.
  - rewrite delete_insert_eq. by apply delete_id.
  - rewrite delete_insert_eq. apply delete_id. by apply next_timer_unarmed.
Qed.

Lemma timed_out_call_leaves_no_trace_witness :
  let c := {| ws := first; id := "c-1"; addonId := Js.JUndefined;
              connectedAt := "t0" |} in
  let r := sendCommandToThunderbird list_accounts search_timeout "r2" None in_flight in
  let s' := timer_fires (next_timer in_flight) r.2 in
  currentClient in_flight = Some c ∧
  pendingRequests in_flight !! "r2" = None ∧
  timers r.2 !! next_timer in_flight =
    Some {| task_requestId := "r2"; task_promise := r.1;
            task_delay := search_timeout |} ∧
  pendingRequests r.2 !! "r2" =
    Some {| promise := r.1; timeout := next_timer in_flight |} ∧
  promises s' !! r.1 = Some (Rejected request_timeout) ∧
  pendingRequests s' = pendingRequests in_flight ∧
  timers s' = timers in_flight.
Proof.
  intros c.
  assert (currentClient in_flight = Some c) as Hc by (vm_compute; reflexivity).
  assert (pendingRequests in_flight !! "r2" = None) as Hfresh
    by (vm_compute; reflexivity).
  split; [exact Hc|]. split; [exact Hfresh|].
  exact (timed_out_call_leaves_no_trace list_accounts search_timeout "r2" c in_flight
           (BridgeSpec.reachable_run _) Hc Hfresh).
Defined.

End BridgeMore.

(** ** More about the worker *)

Module WorkerMore.
Import Worker WorkerScenario WorkerInvariants WorkerSpec.

Lemma sent_sendToCC frame s :
  sent (sendToCC frame s).2 = sent s ++ (if online_now s then [frame] else []).
Proof.
  unfold sendToCC, online_now. destruct (ws s) as [k|].
  - destruct (sockets s !! k) as [[]|]; simpl; rewrite sent_emit; simpl;
      by rewrite ?app_nil_r.
  - simpl. rewrite sent_emit. simpl. by rewrite app_nil_r.
Qed.

Lemma online_now_emit e s : online_now (emit e s) = online_now s.
Proof. done. Qed.

(** A command is answered with at most one frame, and with none at
    all when it is a system message, when it carries no truthy
    requestId, or when the socket is not open at the time of the reply:
    nothing but the response ever leaves the worker for a command. *)
Theorem unanswered_commands command exec meanwhile s :
  system_message (Js.get "type" command) = true ∨
  Js.truthy (Js.get "requestId" command) = false ∨
  online_now (at_reply command meanwhile s) = false →
  sent (handleCommand command exec meanwhile s) =
  sent (at_reply command meanwhile s).
Proof.
  intros Hwhy. unfold handleCommand, at_reply in *.
  destruct (Js.nullish command) eqn:Hn.
  { by destruct command. }
  destruct (Js.stringifiable (Js.get "type" command) &&
            Js.stringifiable (Js.get "requestId" command)); [|done].
  cbn [negb].
  destruct (system_message (Js.get "type" command)) eqn:Hsys.
  { by destruct (Js.get "type" command) as [| | | |t| |]; simpl in *;
      try discriminate; repeat (case_match; try discriminate). }
  destruct Hwhy as [? | [Hrid | Hoff]]; [done | |].
  - destruct (route _) as [h|]; unfold respond; rewrite ?Hrid.
    + destruct (exec h _); rewrite ?Hrid; [done|].
      rewrite sent_emit. simpl. apply app_nil_r.
    + done.
  - destruct (route _) as [h|]; unfold respond.
    + destruct (exec h _) as [result|thrown].
      * destruct (Js.truthy _); [|done].
        rewrite sent_sendToCC, Hoff. apply app_nil_r.
      * destruct (Js.truthy _); [|by rewrite sent_emit; simpl; rewrite app_nil_r].
        destruct (Js.nullish thrown).
        -- rewrite sent_emit. simpl. apply app_nil_r.
        -- rewrite sent_sendToCC, online_now_emit, Hoff, sent_emit. simpl.
           by rewrite !app_nil_r.
    + destruct (Js.truthy _); [|done].
      rewrite sent_sendToCC, Hoff. apply app_nil_r.
Qed.

Lemma unanswered_commands_witness :
  Js.truthy (Js.get "requestId" anonymous_command) = false ∧
  sent (handleCommand anonymous_command idle_executor (λ s, s) online) =
  sent (at_reply anonymous_command (λ s, s) online).
Proof.
  assert (Js.truthy (Js.get "requestId" anonymous_command) = false) as Hrid
    by (vm_compute; reflexivity).
  split; [exact Hrid|].
  exact (unanswered_commands anonymous_command idle_executor (λ s, s) online
           (or_intror (or_introl Hrid))).
Defined.

(** *** The heartbeat *)

Lemma started_run b evs : started (run evs (boot b)).
Proof. by exists b, evs. Defined.

Lemma beating_sendToCC frame s : beating s → beating (sendToCC frame s).2.
Proof.
  intros []. unfold sendToCC.
  destruct (ws s) as [k|]; [destruct (sockets s !! k) as [[]|]|]; by split.
Qed.

Lemma beating_connectToCC b s : beating s → beating (connectToCC b s).
Proof.
  intros [Ha Hn Hx]. unfold connectToCC. destruct b; split; simpl; try done.
  - intros i Hi. apply Hn in Hi. lia.
  - lia.
Qed.

Lemma beating_boot b : beating (boot b).
Proof.
  apply beating_connectToCC. split; simpl; [|done|lia].
  intros i d. by rewrite lookup_empty.
Qed.

Lemma beating_onopen k addonId now s :
  beating s →
  beating (onopen k addonId now s) ∧
  ∃ i, intervals (onopen k addonId now s) = {[i := HEARTBEAT_INTERVAL]}.
Proof.
  intros Hb. unfold onopen.
  set (s1 := (sendToCC _ (set_readyState k OPEN s)).2).
  assert (beating s1) as Hb1.
  { apply beating_sendToCC. destruct Hb. by split. }
  clearbody s1.
  set (s2 := if truthy_id (heartbeatInterval s1)
             then clearInterval (heartbeatInterval s1) s1 else s1).
  assert (intervals s2 = ∅ ∧ (1 ≤ next_id s2)%nat) as [He Hx].
  { unfold s2. destruct (truthy_id (heartbeatInterval s1)) eqn:Htr.
    - destruct (heartbeatInterval s1) as [i|] eqn:Hi; [|done]. simpl.
      split; [|apply (beating_next _ Hb1)].
      apply map_empty. intros j. apply lookup_delete_None.
      destruct (decide (i = j)) as [|Hne]; [by left|right].
      destruct (intervals s1 !! j) as [d|] eqn:Hj; [|done].
      apply (beating_armed _ Hb1) in Hj as [Hj _]. congruence.
    - split; [|apply (beating_next _ Hb1)]. apply map_empty. intros j.
      destruct (intervals s1 !! j) as [d|] eqn:Hj; [|done].
      apply (beating_armed _ Hb1) in Hj as [Hj _]. rewrite Hj in Htr. simpl in Htr.
      apply (beating_named _ Hb1) in Hj. destruct j; [lia|done]. }
  clearbody s2. simpl.
  assert (∀ i d, <[next_id s2 := HEARTBEAT_INTERVAL]> (intervals s2) !! i = Some d →
                 Some (next_id s2) = Some i ∧ d = HEARTBEAT_INTERVAL) as Harmed.
  { intros i d. rewrite He. rewrite lookup_insert_Some, lookup_empty.
    intros [[<- <-] | [_ ?]]; done. }
  destruct (truthy_id (reconnectTimeout s2)).
  - split.
    + destruct (reconnectTimeout s2); simpl; split; simpl; try done;
        try (intros i [= <-]); lia.
    + exists (next_id s2). destruct (reconnectTimeout s2); simpl; by rewrite He.
  - split.
    + split; simpl; try done; try (intros i [= <-]); lia.
    + exists (next_id s2). simpl. by rewrite He.
Qed.

Lemma beating_onclose k s :
  beating s → beating (onclose k s) ∧ intervals (onclose k s) = ∅.
Proof.
  intros Hb. unfold onclose.
  set (s1 := set_ws None (set_readyState k CLOSED s)).
  assert (beating s1) as Hb1 by (destruct Hb; by split). clearbody s1.
  set (s2 := if truthy_id (heartbeatInterval s1)
             then set_heartbeatInterval None (clearInterval (heartbeatInterval s1) s1)
             else s1).
  assert (intervals s2 = ∅ ∧ (∀ i, heartbeatInterval s2 = Some i → (1 ≤ i < next_id s2)%nat))
    as [He Hn].
  { unfold s2. destruct (truthy_id (heartbeatInterval s1)) eqn:Htr.
    - destruct (heartbeatInterval s1) as [i|] eqn:Hi; [|done]. simpl. split; [|done].
      apply map_empty. intros j. apply lookup_delete_None.
      destruct (decide (i = j)) as [|Hne]; [by left|right].
      destruct (intervals s1 !! j) as [d|] eqn:Hj; [|done].
      apply (beating_armed _ Hb1) in Hj as [Hj _]. congruence.
    - split; [|apply (beating_named _ Hb1)]. apply map_empty. intros j.
      destruct (intervals s1 !! j) as [d|] eqn:Hj; [|done].
      apply (beating_armed _ Hb1) in Hj as [Hj _]. rewrite Hj in Htr. simpl in Htr.
      apply (beating_named _ Hb1) in Hj. destruct j; [lia|done]. }
  assert (1 ≤ next_id s2)%nat as Hx.
  { unfold s2. destruct (truthy_id _); [|apply (beating_next _ Hb1)].
    destruct (heartbeatInterval s1); apply (beating_next _ Hb1). }
  clearbody s2.
  destruct (negb (truthy_id (reconnectTimeout s2))); simpl.
  - split; [|done]. split; simpl.
    + intros i d. by rewrite He, lookup_empty.
    + intros i Hi. apply Hn in Hi. lia.
    + lia.
  - split; [|done]. split; [|done..]. intros i d. by rewrite He, lookup_empty.
Qed.

Lemma beating_step s ev : beating s → beating (step s ev).
Proof.
  intros Hb. destruct ev; simpl.
  - by apply beating_onopen.
  - by apply beating_onclose.
  - destruct Hb. by split.
  - unfold timeout_fires. destruct (timeouts s !! t); [|done].
    apply beating_connectToCC. destruct Hb. by split.
  - unfold interval_fires. destruct (intervals s !! i); [|done].
    by apply beating_sendToCC.
Qed.

Lemma beating_run evs s : beating s → beating (run evs s).
Proof.
  revert s. induction evs as [|ev evs IH]; intros s Hb; simpl; [done|].
  by apply IH, beating_step.
Qed.

(** At no point of any run are two heartbeat intervals armed, and an
    armed one has the thirty-second delay and is the one
    [heartbeatInterval] names, whatever the events and however often an
    open or close event is repeated. *)
Theorem heartbeat_is_single s i d :
  started s → intervals s !! i = Some d →
  heartbeatInterval s = Some i ∧ d = HEARTBEAT_INTERVAL ∧
  ∀ i', is_Some (intervals s !! i') → i' = i.
Proof.
  intros (b & evs & ->) Hi. pose proof (beating_run evs _ (beating_boot b)) as Hb.
  destruct (beating_armed _ Hb _ _ Hi) as [Hn ->]. split_and!; try done.
  intros i' [d' Hi']. apply (beating_armed _ Hb) in Hi' as [Hn' _]. congruence.
Qed.

Lemma heartbeat_is_single_witness :
  intervals online !! 1%nat = Some HEARTBEAT_INTERVAL ∧
  heartbeatInterval online = Some 1%nat ∧
  HEARTBEAT_INTERVAL = HEARTBEAT_INTERVAL ∧
  ∀ i', is_Some (intervals online !! i') → i' = 1%nat.
Proof.
  assert (intervals online !! 1%nat = Some HEARTBEAT_INTERVAL) as Hi
    by (vm_compute; reflexivity).
  split; [exact Hi|].
  exact (heartbeat_is_single online 1%nat HEARTBEAT_INTERVAL
           (started_run false _) Hi).
Defined.

(** Opening a connection leaves exactly one heartbeat armed and no
    reconnect pending; closing one leaves no heartbeat armed.  This
    holds after any run, so a heartbeat never outlives its connection
    and a reconnect never fires into an open one. *)
Theorem open_and_close_reset_the_timers s k addonId now :
  started s →
  (∃ i, intervals (onopen k addonId now s) = {[i := HEARTBEAT_INTERVAL]}) ∧
  timeouts (onopen k addonId now s) = ∅ ∧
  reconnectTimeout (onopen k addonId now s) = None ∧
  intervals (onclose k s) = ∅ ∧
  heartbeatInterval (onclose k s) = None.
Proof.
  intros (b & evs & ->).
  pose proof (beating_run evs _ (beating_boot b)) as Hb.
  pose proof (tidy_run evs _ (tidy_boot b)) as Ht.
  generalize dependent (run evs (boot b)). intros s Hb Ht.
  destruct (beating_onopen k addonId now s Hb) as [_ Hone].
  destruct (beating_onclose k s Hb) as [Hb' Hnone].
  pose proof (tidy_onopen k addonId now s Ht) as Ht'.
  assert (reconnectTimeout (onopen k addonId now s) = None) as Hr.
  { unfold onopen. simpl.
    match goal with |- context [truthy_id (reconnectTimeout ?x)] =>
      destruct (truthy_id (reconnectTimeout x)) eqn:Htr; [done|];
      destruct (reconnectTimeout x) as [t|] eqn:Hrt; [|done];
      assert (tidy x) as Hx end.
    { destruct Ht as [Ha Hn Hx].
      unfold sendToCC; simpl.
      destruct (ws s) as [k0|]; [destruct (<[k:=OPEN]> (sockets s) !! k0) as [[]|]|];
        simpl; destruct (truthy_id (heartbeatInterval s));
        try destruct (heartbeatInterval s); simpl;
        split; simpl; try done; try (intros ? Hq; apply Hn in Hq; lia); lia. }
    exfalso. rewrite <- Hrt in Htr. by rewrite (tidy_truthy _ _ Hx Hrt) in Htr. }
  split_and!; try done.
  - apply map_empty. intros t.
    destruct (timeouts (onopen k addonId now s) !! t) as [d|] eqn:E; [|done].
    apply (tidy_armed _ Ht') in E as [E _]. congruence.
  - destruct (heartbeatInterval (onclose k s)) as [i|] eqn:Hi; [|done].
    exfalso. revert Hi. unfold onclose.
    set (s1 := set_ws None (set_readyState k CLOSED s)).
    assert (beating s1) as Hb1 by (destruct Hb; by split). clearbody s1.
    destruct (truthy_id (heartbeatInterval s1)) eqn:Htr.
    + destruct (negb _); simpl; [|done]. by destruct (heartbeatInterval s1).
    + destruct (negb _); simpl; intros Hi; rewrite Hi in Htr; simpl in Htr;
        apply (beating_named _ Hb1) in Hi; destruct i; (lia || done).
Qed.

Lemma open_and_close_reset_the_timers_witness :
  (∃ i, intervals (onopen 1 "addon" "t1" online) = {[i := HEARTBEAT_INTERVAL]}) ∧
  timeouts (onopen 1 "addon" "t1" online) = ∅ ∧
  reconnectTimeout (onopen 1 "addon" "t1" online) = None ∧
  intervals (onclose 0 online) = ∅ ∧
  heartbeatInterval (onclose 0 online) = None.
Proof.
  exact (open_and_close_reset_the_timers online 1 "addon" "t1" (started_run false _)).
Defined.

(** *** One connection at a time *)

Lemma onopen_sockets k a n s :
  sockets (onopen k a n s) = <[k := OPEN]> (sockets s) ∧
  ws (onopen k a n s) = ws s ∧
  next_socket (onopen k a n s) = next_socket s ∧
  (timeouts s = ∅ → timeouts (onopen k a n s) = ∅).
Proof.
  unfold onopen, sendToCC. simpl.
  destruct (ws s) as [k0|] eqn:Hws;
    [destruct (<[k:=OPEN]> (sockets s) !! k0) as [[]|]|];
    simpl; destruct (truthy_id (heartbeatInterval s));
    try destruct (heartbeatInterval s); simpl;
    destruct (truthy_id (reconnectTimeout s));
    try destruct (reconnectTimeout s); simpl; split_and!; try done;
    intros ->; by rewrite ?delete_empty.
Qed.

Lemma onclose_sockets k s :
  sockets (onclose k s) = <[k := CLOSED]> (sockets s) ∧
  ws (onclose k s) = None ∧
  next_socket (onclose k s) = next_socket s.
Proof.
  unfold onclose. simpl.
  destruct (truthy_id (heartbeatInterval s));
    try destruct (heartbeatInterval s); simpl;
    destruct (truthy_id (reconnectTimeout s)); simpl; done.
Qed.

Lemma no_live_single s :
  (∀ k r, sockets s !! k = Some r → ¬ live r) →
  (∀ k r, sockets s !! k = Some r → (k < next_socket s)%nat) →
  single s.
Proof.
  intros Hdead Hfresh. split; try done.
  - intros k k' r r' Hk Hl. by destruct (Hdead _ _ Hk).
  - intros k r Hk Hl. by destruct (Hdead _ _ Hk).
  - intros k r Hk Hl. by destruct (Hdead _ _ Hk).
Qed.

Lemma single_step s ev :
  single s → tidy s → enabled s ev = true → single (step s ev).
Proof.
  intros Hs Ht Hen. destruct ev as [k a n|k|k|t b|i]; simpl in *.
  - destruct (sockets s !! k) as [[]|] eqn:Hk; try done.
    assert (live CONNECTING) as Hl by done.
    destruct (onopen_sockets k a n s) as (Hso & Hws & Hnx & Hti).
    split; rewrite ?Hso, ?Hws, ?Hnx.
    + intros k1 k2 r1 r2 H1 Hl1 H2 Hl2.
      assert (k1 = k) as ->.
      { apply lookup_insert_Some in H1 as [[? _] | [_ H1]]; [done|].
        by apply (single_live _ Hs _ _ _ _ H1 Hl1 Hk Hl). }
      apply lookup_insert_Some in H2 as [[? _] | [_ H2]]; [done|].
      by apply (single_live _ Hs _ _ _ _ Hk Hl H2 Hl2).
    + intros k1 r1 H1 Hl1.
      apply lookup_insert_Some in H1 as [[<- _] | [_ H1]].
      * by apply (single_ws _ Hs _ _ Hk Hl).
      * by apply (single_ws _ Hs _ _ H1 Hl1).
    + intros k1 r1 H1 Hl1. apply Hti. by apply (single_idle _ Hs _ _ Hk Hl).
    + intros k1 r1 H1. apply lookup_insert_Some in H1 as [[<- _] | [_ H1]];
        by eapply (single_fresh _ Hs).
  - destruct (onclose_sockets k s) as (Hso & Hws & Hnx).
    assert (∃ r, sockets s !! k = Some r ∧ live r) as (r & Hk & Hl).
    { destruct (sockets s !! k) as [[]|]; try done; by eexists. }
    apply no_live_single; rewrite ?Hso, ?Hnx.
    + intros k1 r1 H1 Hl1. apply lookup_insert_Some in H1 as [[_ <-] | [Hne H1]].
      * by apply Hl1.
      * apply Hne. by apply (single_live _ Hs _ _ _ _ Hk Hl H1 Hl1).
    + intros k1 r1 H1. apply lookup_insert_Some in H1 as [[<- _] | [_ H1]];
        by eapply (single_fresh _ Hs).
  - destruct Hs. by split.
  - apply bool_decide_eq_true in Hen as [d Hd].
    assert (∀ k r, sockets s !! k = Some r → ¬ live r) as Hdead.
    { intros k r Hk Hl. pose proof (single_idle _ Hs _ _ Hk Hl) as He.
      rewrite He in Hd. by rewrite lookup_empty in Hd. }
    unfold timeout_fires. rewrite Hd. unfold connectToCC. destruct b; simpl.
    + apply no_live_single; [done|]. apply (single_fresh _ Hs).
    + split; simpl.
      * intros k1 k2 r1 r2 H1 Hl1 H2 Hl2.
        apply lookup_insert_Some in H1 as [[<- _] | [_ H1]];
          [|by destruct (Hdead _ _ H1)].
        apply lookup_insert_Some in H2 as [[<- _] | [_ H2]];
          [done|by destruct (Hdead _ _ H2)].
      * intros k1 r1 H1 Hl1.
        apply lookup_insert_Some in H1 as [[<- _] | [_ H1]];
          [done|by destruct (Hdead _ _ H1)].
      * intros _ _ _ _. apply map_empty. intros t'. apply lookup_delete_None.
        destruct (decide (t = t')) as [|Hne]; [by left|right].
        destruct (timeouts s !! t') as [d'|] eqn:E'; [|done].
        apply (tidy_armed _ Ht) in Hd as [Hd _].
        apply (tidy_armed _ Ht) in E' as [E' _]. congruence.
      * intros k1 r1 H1. apply lookup_insert_Some in H1 as [[<- _] | [_ H1]]; [lia|].
        apply (single_fresh _ Hs) in H1. lia.
  - unfold interval_fires. destruct (intervals s !! i); [|done].
    assert (∀ e, single (emit e s)) as Hemit by (intros e; destruct Hs; by split).
    unfold sendToCC.
    destruct (ws s) as [k|]; [destruct (sockets s !! k) as [[]|]|]; apply Hemit.
Qed.

Lemma single_boot b : single (boot b).
Proof.
  unfold boot, connectToCC. destruct b; simpl.
  - apply no_live_single; simpl; intros k r; by rewrite lookup_empty.
  - split; simpl; try done.
    + intros k k' r r'. rewrite !lookup_insert_Some, !lookup_empty.
      intros [[<- _] | [_ ?]] _ [[<- _] | [_ ?]]; done.
    + intros k r. rewrite lookup_insert_Some, lookup_empty.
      intros [[<- _] | [_ ?]]; done.
    + intros k r. rewrite lookup_insert_Some, lookup_empty.
      intros [[<- _] | [_ ?]]; [lia|done].
Qed.

Lemma single_run evs s :
  single s → tidy s → feasible evs s = true → single (run evs s).
Proof.
  revert s. induction evs as [|ev evs IH]; intros s Hs Ht Hf; simpl; [done|].
  simpl in Hf. apply andb_prop in Hf as [Hen Hf].
  apply IH; [by apply single_step | by apply tidy_step | done].
Qed.

(** The worker never holds two connections.  In every run that the
    browser can produce, at most one socket is connecting or open at a
    time, [ws] is that socket, and no reconnect timer is armed while it
    lives: a reconnect attempt is never made beside a live
    connection. *)
Theorem one_connection_at_a_time s k r :
  delivered s →
  sockets s !! k = Some r → r ≠ CLOSED →
  ws s = Some k ∧ timeouts s = ∅ ∧
  ∀ k' r', sockets s !! k' = Some r' → r' ≠ CLOSED → k' = k.
Proof.
  intros (b & evs & -> & Hf) Hk Hl.
  pose proof (single_run evs _ (single_boot b) (tidy_boot b) Hf) as Hs.
  split_and!.
  - by apply (single_ws _ Hs _ _ Hk).
  - by apply (single_idle _ Hs _ _ Hk).
  - intros k' r' Hk' Hl'. by apply (single_live _ Hs _ _ _ _ Hk' Hl' Hk Hl).
Qed.

Lemma one_connection_at_a_time_witness :
  delivered online ∧ sockets online !! 0%nat = Some OPEN ∧
  ws online = Some 0%nat ∧ timeouts online = ∅ ∧
  ∀ k' r', sockets online !! k' = Some r' → r' ≠ CLOSED → k' = 0%nat.
Proof.
  assert (delivered online) as Hd.
  { exists false, [OnOpen 0 "addon" "t0"]. split; [reflexivity|].
    vm_compute. reflexivity. }
  assert (sockets online !! 0%nat = Some OPEN) as Hk by (vm_compute; reflexivity).
  split; [exact Hd|]. split; [exact Hk|].
  refine (one_connection_at_a_time online 0%nat OPEN Hd Hk _). discriminate.
Defined.

End WorkerMore.

(** ** The two ends together *)

Module Wire.
Import Bridge BridgeRun BridgeFacts Scenario Correlation WireScenario.

Lemma routed_is_no_system_message ty h :
  Worker.route ty = Some h → Worker.system_message ty = false.
Proof.
  destruct ty as [| | | |t| |]; try done. simpl.
  repeat (case_match; try done).
Qed.

(** A tool call answered by the worker, with both frames carried as
    JSON.  The bridge registers the call and hands the command frame
    to the current connection; the worker parses it, runs the handler
    on the payload as it arrived and, still connected when the handler
    returns, sends back one frame; when the bridge has parsed that
    frame the caller's promise is fulfilled with what the handler
    returned as JSON carries it (a key that held [undefined] is gone),
    and the table and the timers are what they were before the call. *)
Theorem round_trip command delay requestId w now throws exec meanwhile h result k wk s :
  reachable s → current w s →
  pendingRequests s !! requestId = None → requestId ≠ "" →
  Worker.route (Js.JStr (type command)) = Some h →
  exec h (Js.wire (payload command)) = Worker.Returns result →
  WorkerScenario.connected k (meanwhile wk) →
  let r := sendCommandToThunderbird command delay requestId None s in
  let frame := Js.JObj [("type", Js.JStr (type command));
                        ("payload", payload command);
                        ("requestId", Js.JStr requestId)] in
  let answer := Js.JObj [("type", Js.JStr "response");
                         ("requestId", Js.JStr requestId);
                         ("payload", result)] in
  let wk' := Worker.onmessage (Js.received frame) exec meanwhile wk in
  let s' := message w (Js.received answer) now throws r.2 in
  last (log r.2) = Some (WsSend w frame) ∧
  WorkerScenario.sent wk' = WorkerScenario.sent (meanwhile wk) ++ [answer] ∧
  promises s' !! r.1 = Some (Fulfilled (Js.wire result)) ∧
  pendingRequests s' = pendingRequests s ∧
  timers s' = timers s.
Proof.
  intros Hreach Hcur Hfresh Hne Hroute Hexec Hconn r frame answer wk' s'.
  pose proof (reachable_wf _ Hreach) as Hwf.
  pose proof (wf_sendCommandToThunderbird command delay requestId None s Hwf) as Hwf1.
  fold r in Hwf1.
  destruct Hcur as (c & Hc & Hw & Hid).
  assert (r = (next_promise s,
               emit (WsSend (ws c) frame)
                 (set_pendingRequests
                    (<[requestId := {| promise := next_promise s;
                                       timeout := next_timer s |}]> (pendingRequests s))
                    (setTimeout {| task_requestId := requestId;
                                   task_promise := next_promise s;
                                   task_delay := delay |}
                       (new_promise s).2).2))) as Hr.
  { unfold r, sendCommandToThunderbird. simpl. by rewrite Hc. }
  assert (current w r.2) as Hcur1.
  { rewrite Hr. simpl. by exists c. }
  assert (pendingRequests r.2 !! requestId =
          Some {| promise := next_promise s; timeout := next_timer s |}) as He.
  { rewrite Hr. simpl. by rewrite lookup_insert_eq. }
  assert (response_to requestId (Js.wire answer)) as Hresp.
  { unfold answer. by destruct result. }
  assert (Js.get "payload" (Js.wire answer) = Js.wire result) as Hpayload.
  { unfold answer. by destruct result. }
  pose proof (message_response_hit w requestId _ (Js.wire answer) now throws r.2
                Hwf1 Hcur1 Hresp Hne He) as (Hp & Ht & Hs & _).
  change (message w (Some (Js.wire answer)) now throws r.2) with s' in Hp, Ht, Hs.
  split_and!.
  - rewrite Hr. simpl. rewrite last_snoc. by rewrite Hw.
  - unfold wk'. change (Js.received frame) with (Some (Js.wire frame)).
    unfold Worker.onmessage, Worker.handleCommand.
    assert (Js.nullish (Js.wire frame) = false) as -> by done.
    assert (Js.get "type" (Js.wire frame) = Js.JStr (type command)) as ->.
    { unfold frame. by destruct (payload command). }
    assert (Js.get "requestId" (Js.wire frame) = Js.JStr requestId) as ->.
    { unfold frame. by destruct (payload command). }
    assert (Js.get "payload" (Js.wire frame) = Js.wire (payload command)) as ->.
    { unfold frame. by destruct (payload command). }
    cbv zeta. cbn [Js.stringifiable andb negb].
    rewrite (routed_is_no_system_message _ _ Hroute), Hroute, Hexec.
    unfold Worker.respond.
    assert (Js.truthy (Js.JStr requestId) = true) as ->.
    { simpl. destruct (String.eqb requestId "") eqn:E; [|done].
      by apply String.eqb_eq in E. }
    by apply (WorkerSpec.sendToCC_connected k).
  - rewrite Hs, Hpayload. rewrite Hr. simpl. by rewrite lookup_insert_eq.
  - rewrite Hp. rewrite Hr. simpl.
    rewrite delete_insert_eq. by apply delete_id.
  - rewrite Ht. rewrite Hr. simpl.
    rewrite delete_insert_eq. apply delete_id. by apply next_timer_unarmed.
Qed.

(** A result in which the handler left a key [undefined]: the key
    does not reach the caller. *)
Lemma round_trip_witness :
  let sent_mail := Js.JObj [("success", Js.JBool true);
                            ("sentTo", Js.JUndefined);
                            ("messageId", Js.JNum 7)] in
  let exec := λ (_ : Worker.handler) (_ : Js.value), Worker.Returns sent_mail in
  let r := sendCommandToThunderbird list_accounts default_timeout "r1" None accepted in
  let frame := Js.JObj [("type", Js.JStr (type list_accounts));
                        ("payload", payload list_accounts);
                        ("requestId", Js.JStr "r1")] in
  let answer := Js.JObj [("type", Js.JStr "response");
                         ("requestId", Js.JStr "r1");
                         ("payload", sent_mail)] in
  let wk' := Worker.onmessage (Js.received frame) exec (λ s, s) WorkerScenario.online in
  let s' := message first (Js.received answer) "t1" None r.2 in
  pendingRequests accepted !! "r1" = None ∧
  (last (log r.2) = Some (WsSend first frame) ∧
   WorkerScenario.sent wk' =
     WorkerScenario.sent ((λ s, s) WorkerScenario.online) ++ [answer] ∧
   promises s' !! r.1 = Some (Fulfilled (Js.wire sent_mail)) ∧
   pendingRequests s' = pendingRequests accepted ∧
   timers s' = timers accepted) ∧
  Js.wire sent_mail = Js.JObj [("success", Js.JBool true); ("messageId", Js.JNum 7)].
Proof.
  intros sent_mail exec.
  assert (pendingRequests accepted !! "r1" = None) as Hfresh
    by (vm_compute; reflexivity).
  split; [exact Hfresh|]. split; [|reflexivity].
  refine (round_trip list_accounts default_timeout "r1" first "t1" None
            exec (λ s, s) Worker.handleListAccounts
            sent_mail 0 WorkerScenario.online accepted
            (BridgeSpec.reachable_run _) _ Hfresh _ _ _ _).
  - eexists. split; [vm_compute; reflexivity|]. split; reflexivity.
  - discriminate.
  - reflexivity.
  - reflexivity.
  - split; vm_compute; reflexivity.
Defined.

(** The handshake.  When the worker's socket opens, the first frame
    the worker sends is its register frame; the bridge, for which this
    connection is current, records the announced identity and answers
    with [registered] and nothing else; and the worker answers neither
    that frame nor the bridge's welcome, so the exchange ends there. *)
Theorem handshake w addon stamp now throws k exec meanwhile wk s :
  current w s → Worker.ws wk = Some k →
  let wk1 := Worker.onopen k addon stamp wk in
  let s1 := message w (Some (Worker.register_frame addon stamp)) now throws s in
  (∃ rest, WorkerScenario.sent wk1
           = WorkerScenario.sent wk ++ Worker.register_frame addon stamp :: rest) ∧
  (∃ c, currentClient s1 = Some c ∧ ws c = w ∧ addonId c = Js.JStr addon) ∧
  log s1 = log s ++ WsSend w registered ::
             match throws with
             | None => []
             | Some _ => [ConsoleError "Error processing message from client"]
             end ∧
  pendingRequests s1 = pendingRequests s ∧
  Worker.handleCommand registered exec meanwhile wk1 = wk1 ∧
  ∀ clientId t, Worker.handleCommand (welcome clientId t) exec meanwhile wk1 = wk1.
Proof.
  intros (c & Hc & Hw & Hid) Hws wk1 s1. split_and!; try done.
  - exists []. unfold wk1, Worker.onopen, Worker.sendToCC. simpl. rewrite Hws.
    rewrite lookup_insert_eq. simpl.
    destruct (Worker.truthy_id (Worker.heartbeatInterval wk));
      try destruct (Worker.heartbeatInterval wk); simpl;
      destruct (Worker.truthy_id (Worker.reconnectTimeout wk));
      try destruct (Worker.reconnectTimeout wk); simpl;
      unfold WorkerScenario.sent; simpl; rewrite !omap_app; simpl;
      by rewrite ?app_nil_r.
  - unfold s1, message. rewrite Hc. rewrite decide_True by done. simpl.
    destruct throws; simpl; by eexists.
  - unfold s1, message. rewrite Hc. rewrite decide_True by done. simpl.
    destruct throws; simpl; by rewrite <- ?app_assoc.
  - unfold s1, message. rewrite Hc. rewrite decide_True by done. simpl.
    by destruct throws.
Qed.

Lemma handshake_witness :
  let wk := Worker.boot false in
  let wk1 := Worker.onopen 0 "addon" "t0" wk in
  let s1 := message first (Some (Worker.register_frame "addon" "t0")) "t1" None accepted in
  current first accepted ∧ Worker.ws wk = Some 0%nat ∧
  (∃ rest, WorkerScenario.sent wk1
           = WorkerScenario.sent wk ++ Worker.register_frame "addon" "t0" :: rest) ∧
  (∃ c, currentClient s1 = Some c ∧ ws c = first ∧ addonId c = Js.JStr "addon").
Proof.
  intros wk wk1 s1.
  assert (current first accepted) as Hcur.
  { eexists. split; [vm_compute; reflexivity|]. split; reflexivity. }
  assert (Worker.ws wk = Some 0%nat) as Hws by reflexivity.
  split; [exact Hcur|]. split; [exact Hws|].
  destruct (handshake first "addon" "t0" "t1" None 0 WorkerScenario.idle_executor
              (λ s, s) wk accepted Hcur Hws) as (Hsent & Hrec & _).
  split; [exact Hsent | exact Hrec].
Defined.

(** A heartbeat.  When the heartbeat interval fires on a connected
    worker, the worker sends one frame of type [heartbeat]; the bridge,
    having parsed it, answers on the same connection with one frame of
    type [heartbeat_ack] whose payload holds the clock reading as
    [timestamp], and leaves its table alone; and the worker, having
    parsed the ack, does not answer it, so each beat costs exactly two
    frames. *)
Theorem heartbeat_exchange w now i k exec meanwhile wk s :
  current w s → WorkerScenario.connected k wk →
  is_Some (Worker.intervals wk !! i) →
  let beat := Js.JObj [("type", Js.JStr "heartbeat")] in
  let ack := Js.JObj [("type", Js.JStr "heartbeat_ack");
                      ("payload", Js.JObj [("timestamp", Js.JStr now)])] in
  let wk1 := Worker.interval_fires i wk in
  let s1 := message w (Js.received beat) now None s in
  WorkerScenario.sent wk1 = WorkerScenario.sent wk ++ [beat] ∧
  log s1 = log s ++ [WsSend w ack] ∧
  pendingRequests s1 = pendingRequests s ∧
  Worker.onmessage (Js.received ack) exec meanwhile wk1 = wk1.
Proof.
  intros (c & Hc & Hw & Hid) Hconn [d Hi] beat ack wk1 s1. split_and!; try done.
  - unfold wk1, Worker.interval_fires. rewrite Hi.
    by apply (WorkerSpec.sendToCC_connected k).
  - unfold s1, message. simpl. rewrite Hc. by rewrite decide_True.
  - unfold s1, message. simpl. rewrite Hc. by rewrite decide_True.
Qed.

Lemma heartbeat_exchange_witness :
  let beat := Js.JObj [("type", Js.JStr "heartbeat")] in
  let ack := Js.JObj [("type", Js.JStr "heartbeat_ack");
                      ("payload", Js.JObj [("timestamp", Js.JStr "t1")])] in
  let wk1 := Worker.interval_fires 1 WorkerScenario.online in
  let s1 := message first (Js.received beat) "t1" None accepted in
  is_Some (Worker.intervals WorkerScenario.online !! 1%nat) ∧
  WorkerScenario.sent wk1 = WorkerScenario.sent WorkerScenario.online ++ [beat] ∧
  log s1 = log accepted ++ [WsSend first ack] ∧
  pendingRequests s1 = pendingRequests accepted ∧
  Worker.onmessage (Js.received ack) WorkerScenario.idle_executor (λ s, s) wk1 = wk1.
Proof.
  assert (current first accepted) as Hcur.
  { eexists. split; [vm_compute; reflexivity|]. split; reflexivity. }
  assert (WorkerScenario.connected 0 WorkerScenario.online) as Hconn
    by (split; vm_compute; reflexivity).
  assert (is_Some (Worker.intervals WorkerScenario.online !! 1%nat)) as Hi.
  { exists Worker.HEARTBEAT_INTERVAL. vm_compute. reflexivity. }
  split; [exact Hi|].
  exact (heartbeat_exchange first "t1" 1 0 WorkerScenario.idle_executor (λ s, s)
           WorkerScenario.online accepted Hcur Hconn Hi).
Defined.

End Wire.

(** ** The tool front-end *)

Module ToolsSpec.
Import Bridge BridgeRun BridgeFacts Tools.

Lemma listed_tool name :
  name ∈ tool_names →
  name = "list_accounts" ∨ name = "list_folders" ∨ name = "list_unread_emails" ∨
  name = "search_emails" ∨ name = "read_email_raw" ∨ name = "read_email" ∨
  name = "read_email_attachments" ∨ name = "send_email" ∨
  name = "download_attachment".
Proof.
  unfold tool_names. rewrite !elem_of_cons, elem_of_nil. tauto.
Qed.

Lemma requested_is_listed name args : is_Some (request name args) → name ∈ tool_names.
Proof.
  intros [x Hx]. unfold request in Hx.
  repeat (case_match; try discriminate); subst; unfold tool_names; set_solver.
Qed.

Lemma routed_is_listed ty h :
  Worker.route ty = Some h → ∃ name, ty = Js.JStr name ∧ name ∈ tool_names.
Proof.
  intros Hr. destruct ty as [| | | |t| |]; try done. exists t. split; [done|].
  simpl in Hr.
  repeat (case_match; try discriminate); subst; unfold tool_names; set_solver.
Qed.

Lemma tools_are_served_listed name args :
  name ∈ tool_names → is_Some (request name args).
Proof.
  intros H. apply listed_tool in H.
  repeat (destruct H as [-> | H]); try subst name; by eexists.
Qed.

(** The three tables agree.  A name is in the list of tools exactly
    when the handler's switch has a case for it, and exactly when the
    worker's switch routes it to a handler.  So every listed tool is
    served, no command the front-end sends is met with "Unknown command
    type", and every command of the worker is reachable as a tool.  The
    command goes out under the tool's own name, with the sixty-second
    timeout for [search_emails] and the thirty-second one otherwise. *)
Theorem tools_are_served name args :
  (name ∈ tool_names ↔ is_Some (request name args)) ∧
  (name ∈ tool_names ↔ is_Some (Worker.route (Js.JStr name))) ∧
  ∀ command delay, request name args = Some (command, delay) →
    type command = name ∧
    delay = if String.eqb name "search_emails" then search_timeout
            else default_timeout.
Proof.
  split_and!.
  - split; [|apply requested_is_listed].
    intros H. apply listed_tool in H.
    repeat (destruct H as [-> | H]); try subst name; by eexists.
  - split.
    + intros H. apply listed_tool in H.
      repeat (destruct H as [-> | H]); try subst name; by eexists.
    + intros [h Hh]. destruct (routed_is_listed _ _ Hh) as (n & [= ->] & Hn). done.
  - intros command delay Hreq.
    assert (name ∈ tool_names) as H by (apply (requested_is_listed name args); by eexists).
    apply listed_tool in H.
    repeat (destruct H as [-> | H]); try subst name;
      simpl in Hreq; by injection Hreq as <- <-.
Qed.

Lemma tools_are_served_witness :
  "search_emails" ∈ tool_names ∧
  is_Some (request "search_emails" Js.JUndefined) ∧
  is_Some (Worker.route (Js.JStr "search_emails")).
Proof.
  assert ("search_emails" ∈ tool_names) as Hin.
  { unfold tool_names. rewrite !elem_of_cons. tauto. }
  destruct (tools_are_served "search_emails" Js.JUndefined) as (Hreq & Hroute & _).
  split; [exact Hin|].
  split; [exact (proj1 Hreq Hin) | exact (proj1 Hroute Hin)].
Defined.

Section Node.

Variable turndown : string → string + Js.error.
Variable decode : string → list Ascii.ascii.
Variable join : string → string → string.
Variable dirname : string → string.
Variable path_type_error : Js.value → Js.error.
Variable render : Js.value → string.
Variable mkdir_throws : string → option Js.error.
Variable write_throws : string → option Js.error.

Local Abbreviation respond :=
  (Tools.respond turndown decode join dirname path_type_error render
     mkdir_throws write_throws).
Local Abbreviation save_all :=
  (Tools.save_all decode join dirname path_type_error mkdir_throws write_throws).

(** A tool called while no worker is connected.  For every listed
    tool and whatever its arguments, the only thing the call does is
    reject its promise, at once, with the "No Thunderbird client
    connected" error: nothing is handed to a socket, no timer is
    armed, nothing is registered.  The handler then returns an error
    result carrying that message and the hint to load the add-on,
    without touching the file system. *)
Theorem tool_call_without_worker name args requestId throws s :
  name ∈ tool_names → reachable s → currentClient s = None →
  let r := call_tool name args requestId throws s in
  let error :=
    Js.Error "No Thunderbird client connected. Make sure the addon is loaded." in
  ∃ p, r.1 = Some p ∧
       promises r.2 !! p = Some (Rejected error) ∧
       log r.2 = log s ++ [CallReject p error] ∧
       pendingRequests r.2 = pendingRequests s ∧
       timers r.2 = timers s ∧
       currentClient r.2 = None ∧
       respond name args (Rejected error) =
         ({| FrontEnd.text :=
               Js.JObj
                 [("error",
                   Js.JStr "No Thunderbird client connected. Make sure the addon is loaded.");
                  ("hint",
                   Js.JStr "Make sure the Thunderbird addon is loaded and connected to the C&C server")];
             FrontEnd.isError := true |}, []).
Proof.
  intros Hin Hreach Hc. pose proof (reachable_wf _ Hreach) as Hwf.
  destruct (tools_are_served_listed name args Hin) as ([command delay] & Hreq).
  unfold call_tool. rewrite Hreq. simpl.
  unfold sendCommandToThunderbird. simpl. rewrite Hc. simpl.
  exists (next_promise s). split_and!; try done.
  rewrite (next_promise_unsettled _ Hwf). by rewrite lookup_insert_eq.
Qed.

(** The handler writes nothing unless the worker reports success.
    Whatever the tool and its arguments, if the handler makes any call
    to the file system, then the tool is one of the two attachment
    tools and the worker's answer is an object whose [success] field is
    truthy; a rejected call and a failure result leave the disk alone. *)
Theorem nothing_written_without_success name args settled :
  (respond name args settled).2 ≠ [] →
  (name = "read_email_attachments" ∨ name = "download_attachment") ∧
  ∃ result, settled = Fulfilled result ∧
            Js.truthy (Js.get "success" result) = true.
Proof.
  intros Hfx. destruct settled as [result|e]; [|done]. simpl in Hfx.
  assert (name = "read_email_attachments" ∧
            (Tools.read_email_attachments decode join dirname path_type_error render
               mkdir_throws write_throws args result).2 ≠ [] ∨
          name = "download_attachment" ∧
            (Tools.download_attachment decode dirname path_type_error render
               mkdir_throws write_throws args result).2 ≠ []) as Hcase.
  { revert Hfx. unfold Tools.respond.
    repeat (case_match; try done); subst; intros Hfx; (by left) || (by right). }
  destruct Hcase as [[-> Hw] | [-> Hw]].
  - split; [by left|]. exists result. split; [done|].
    revert Hw. unfold Tools.read_email_attachments, has_attachments.
    destruct (Js.truthy result && Js.is_object result && Js.has "success" result)
      eqn:E1; simpl; [|done].
    by destruct (Js.truthy (Js.get "success" result)).
  - split; [by right|]. exists result. split; [done|].
    revert Hw. unfold Tools.download_attachment, has_data.
    destruct (Js.truthy result && Js.is_object result && Js.has "success" result)
      eqn:E1; simpl; [|done].
    by destruct (Js.truthy (Js.get "success" result)).
Qed.

Lemma save_all_closed dir attachments savedFiles fx :
  (∀ p, mkdir_throws p = None) → (∀ p, write_throws p = None) →
  save_all (Js.JStr dir) attachments savedFiles fx =
  (inr (savedFiles ++
        map (λ fd, saved_file fd.1 (join dir fd.1) (decode fd.2))
          (omap savable attachments)),
   fx ++ flat_map (λ fd, [Mkdir (dirname (join dir fd.1));
                          WriteFile (join dir fd.1) (decode fd.2)])
           (omap savable attachments)).
Proof.
  intros Hm Hw. revert savedFiles fx.
  induction attachments as [|a rest IH]; intros savedFiles fx; simpl.
  - by rewrite !app_nil_r.
  - destruct (savable a) as [[filename data]|]; simpl; [|apply IH].
    rewrite Hm, Hw, IH. simpl. by rewrite <- !app_assoc.
Qed.

(** What [read_email_attachments] saves.  When the worker reports
    success with an array of attachments, the download path is a
    string and the file system accepts every call, the handler saves
    one file per attachment that carries a string [filename] and a
    string [data], skipping the others, in the order of the array: for
    each it creates the directory of the target and then writes the
    decoded bytes, and it reports each target with the number of bytes
    written and the number of files saved. *)
Theorem attachments_are_saved_in_order dir attachments args result :
  (∀ p, mkdir_throws p = None) → (∀ p, write_throws p = None) →
  has_attachments result = Some attachments →
  arg "downloadPath" args = Js.JStr dir →
  let files := omap savable attachments in
  respond "read_email_attachments" args (Fulfilled result) =
  (passed
     (Js.JObj
        [("success", Js.JBool true);
         ("message",
          Js.JStr ("Downloaded " +:+ render (Js.JNum (Z.of_nat (length files))) +:+
                   " attachment(s) to " +:+ render (Js.JStr dir)));
         ("files",
          Js.JArr (map (λ fd, saved_file fd.1 (join dir fd.1) (decode fd.2)) files))]),
   flat_map (λ fd, [Mkdir (dirname (join dir fd.1));
                    WriteFile (join dir fd.1) (decode fd.2)]) files).
Proof.
  intros Hm Hw Hatt Hdir files. simpl.
  unfold Tools.read_email_attachments. rewrite Hatt, Hdir.
  rewrite (save_all_closed dir attachments [] [] Hm Hw). simpl.
  by rewrite length_map.
Qed.

End Node.

(** A runtime for the examples: base64 is not decoded, paths are
    joined with a slash, the directory of a path is the root, and the
    file system accepts everything. *)
Lemma nothing_written_without_success_witness :
  let respond :=
    Tools.respond (λ html, inl html) (λ data, String.list_ascii_of_string data)
      (λ dir file, dir +:+ "/" +:+ file) (λ _, "/")
      (λ _, Js.Error "path must be a string") (λ _, "")
      (λ _, None) (λ _, None) in
  let args := Js.JObj [("downloadPath", Js.JStr "/tmp/a.txt")] in
  let result := Js.JObj [("success", Js.JBool true); ("data", Js.JStr "aGk=")] in
  (respond "download_attachment" args (Fulfilled result)).2 ≠ [] ∧
  Js.truthy (Js.get "success" result) = true.
Proof.
  intros respond args result.
  assert ((respond "download_attachment" args (Fulfilled result)).2 ≠ []) as Hfx
    by discriminate.
  split; [exact Hfx|].
  destruct (nothing_written_without_success _ _ _ _ _ _ _ _ _ _ _ Hfx)
    as (_ & r & Hr & Hs).
  injection Hr as <-. exact Hs.
Defined.

Lemma tool_call_without_worker_witness :
  let respond :=
    Tools.respond (λ html, inl html) (λ data, String.list_ascii_of_string data)
      (λ dir file, dir +:+ "/" +:+ file) (λ _, "/")
      (λ _, Js.Error "path must be a string") (λ _, "")
      (λ _, None) (λ _, None) in
  let args := Js.JObj [("messageId", Js.JNum 7)] in
  let r := call_tool "read_email" args "r1" None init in
  let error :=
    Js.Error "No Thunderbird client connected. Make sure the addon is loaded." in
  "read_email" ∈ tool_names ∧ currentClient init = None ∧
  ∃ p, r.1 = Some p ∧
       promises r.2 !! p = Some (Rejected error) ∧
       log r.2 = log init ++ [CallReject p error] ∧
       pendingRequests r.2 = pendingRequests init ∧
       timers r.2 = timers init ∧
       currentClient r.2 = None ∧
       respond "read_email" args (Rejected error) =
         ({| FrontEnd.text :=
               Js.JObj
                 [("error",
                   Js.JStr "No Thunderbird client connected. Make sure the addon is loaded.");
                  ("hint",
                   Js.JStr "Make sure the Thunderbird addon is loaded and connected to the C&C server")];
             FrontEnd.isError := true |}, []).
Proof.
  intros respond args r error.
  assert ("read_email" ∈ tool_names) as Hin.
  { unfold tool_names. rewrite !elem_of_cons. tauto. }
  split; [exact Hin|]. split; [reflexivity|].
  exact (tool_call_without_worker
           (λ html, inl html) (λ data, String.list_ascii_of_string data)
           (λ dir file, dir +:+ "/" +:+ file) (λ _, "/")
           (λ _, Js.Error "path must be a string") (λ _, "")
           (λ _, None) (λ _, None)
           "read_email" args "r1" None init Hin BridgeSpec.reachable_init eq_refl).
Defined.

Lemma attachments_are_saved_in_order_witness :
  let respond :=
    Tools.respond (λ html, inl html) (λ data, String.list_ascii_of_string data)
      (λ dir file, dir +:+ "/" +:+ file) (λ _, "/")
      (λ _, Js.Error "path must be a string") (λ _, "")
      (λ _, None) (λ _, None) in
  let args := Js.JObj [("downloadPath", Js.JStr "/tmp")] in
  let attachments :=
    [Js.JObj [("filename", Js.JStr "a.txt"); ("data", Js.JStr "aGk=")];
     Js.JObj [("filename", Js.JStr "broken")];
     Js.JObj [("filename", Js.JStr "b.txt"); ("data", Js.JStr "eW8=")]] in
  let result := Js.JObj [("success", Js.JBool true);
                         ("attachments", Js.JArr attachments)] in
  (respond "read_email_attachments" args (Fulfilled result)).2 =
  [Mkdir "/"; WriteFile "/tmp/a.txt" (String.list_ascii_of_string "aGk=");
   Mkdir "/"; WriteFile "/tmp/b.txt" (String.list_ascii_of_string "eW8=")].
Proof.
  intros respond args attachments result.
  exact (f_equal snd
           (attachments_are_saved_in_order
              (λ html, inl html) (λ data, String.list_ascii_of_string data)
              (λ dir file, dir +:+ "/" +:+ file) (λ _, "/")
              (λ _, Js.Error "path must be a string") (λ _, "")
              (λ _, None) (λ _, None)
              "/tmp" attachments args result
              (λ _, eq_refl) (λ _, eq_refl) eq_refl eq_refl)).
Defined.

End ToolsSpec.

(** ** The worker's handlers *)

Module HandlersSpec.
Import Handlers HandlersScenario.

(** Induction over a message part and, with it, over all the parts
    below it. *)
Lemma MessagePart_nested_ind (P : MessagePart → Prop) :
  (∀ ct b, P (mkPart ct b None)) →
  (∀ ct b subparts, Forall P subparts → P (mkPart ct b (Some subparts))) →
  ∀ part, P part.
Proof.
  intros Hleaf Hnode. fix IH 1. intros [ct b [subparts|]]; [|apply Hleaf].
  apply Hnode. induction subparts as [|q r IHr]; constructor; [apply IH | apply IHr].
Qed.

Lemma MailFolder_nested_ind (P : MailFolder → Prop) :
  (∀ i n p t u subs, Forall P subs → P (mkFolder i n p t u subs)) →
  ∀ folder, P folder.
Proof.
  intros Hnode. fix IH 1. intros [i n p t u subs]. apply Hnode.
  induction subs as [|g r IHr]; constructor; [apply IH | apply IHr].
Qed.

Lemma head_omap_app (l l' : list MessagePart) :
  head (omap own_text (l ++ l')) =
  match head (omap own_text l) with
  | Some x => Some x
  | None => head (omap own_text l')
  end.
Proof.
  rewrite omap_app. by destruct (omap own_text l).
Qed.

(** [extractTextFromPart] returns the text of the first part, in
    document order, that is plain text or HTML with a non-empty body;
    it returns nothing exactly when the message has no such part.  So
    between a plain and an HTML alternative the one that comes first in
    the message wins, and a part that qualifies hides the parts below
    it. *)
Theorem extractTextFromPart_takes_the_first part :
  extractTextFromPart part = head (omap own_text (preorder part)).
Proof.
  induction part as [ct b | ct b subparts IH] using MessagePart_nested_ind.
  - simpl. by destruct (own_text _).
  - simpl. destruct (own_text (mkPart ct b (Some subparts))) as [x|]; [done|]. simpl.
    induction IH as [|q r Hq _ IHr]; [done|].
    rewrite head_omap_app, <- Hq. destruct (extractTextFromPart q); [done|].
    apply IHr.
Qed.

Section Turndown.

Variable turndown : string → string + Js.error.

(** A message read through both ends.  The worker's [handleReadEmail]
    builds its result from the first text part of the message; the
    result travels as JSON, so that a header field the mail API left
    [undefined] is missing from what arrives; the front-end
    post-processes what arrived.  If the part is HTML and the
    conversion succeeds, the tool returns the markdown and no [isHtml]
    flag, every other field as it arrived; if the conversion throws, it
    returns what arrived, HTML and flag included; if the part is plain
    text, or there is none (then the body is empty), what arrived also
    comes back untouched, with [isHtml] false. *)
Theorem read_email_end_to_end payload message full :
  let result := handleReadEmail payload message full in
  let arrived := Js.wire result in
  let out := FrontEnd.to_markdown turndown arrived in
  Js.get "success" arrived = Js.JBool true ∧
  (∀ k, Js.get k (Js.get "message" arrived) =
        Js.wire (Js.get k (Js.get "message" result))) ∧
  match extractTextFromPart full with
  | Some (html, true) =>
      match turndown html with
      | inl markdown =>
          Js.get "body" (Js.get "message" out) = Js.JStr markdown ∧
          Js.has "isHtml" (Js.get "message" out) = false ∧
          ∀ k, k ≠ "body" → k ≠ "isHtml" →
            Js.get k (Js.get "message" out) =
            Js.wire (Js.get k (Js.get "message" result))
      | inr _ =>
          out = arrived ∧
          Js.get "body" (Js.get "message" out) = Js.JStr html ∧
          Js.get "isHtml" (Js.get "message" out) = Js.JBool true
      end
  | Some (text, false) =>
      out = arrived ∧
      Js.get "body" (Js.get "message" out) = Js.JStr text ∧
      Js.get "isHtml" (Js.get "message" out) = Js.JBool false
  | None =>
      out = arrived ∧
      Js.get "body" (Js.get "message" out) = Js.JStr "" ∧
      Js.get "isHtml" (Js.get "message" out) = Js.JBool false
  end.
Proof.
  intros result arrived out.
  destruct (Js.get "message" result) as [| | | | | |fields] eqn:Hfields; try done.
  assert (NoDup fields.*1) as Hnd.
  { injection Hfields as <-. cbn [fmap list_fmap fst].
    repeat (apply NoDup_cons_2;
            [rewrite ?elem_of_cons, elem_of_nil; intros H;
             repeat (destruct H as [H|H]; [discriminate H|]); exact H |]).
    apply NoDup_nil_2. }
  destruct (JsFacts.wire_JObj fields Hnd) as (fields' & Hwire & Hassoc).
  assert (arrived = Js.JObj [("success", Js.JBool true);
                             ("message", Js.JObj fields')]) as Harrived.
  { assert (result = Js.JObj [("success", Js.JBool true);
                              ("message", Js.JObj fields)]) as Hresult
      by (injection Hfields as <-; reflexivity).
    assert (∀ m, Js.wire (Js.JObj [("success", Js.JBool true);
                                   ("message", Js.JObj m)]) =
                 Js.JObj [("success", Js.JBool true);
                          ("message", Js.wire (Js.JObj m))]) as Hshape
      by reflexivity.
    unfold arrived. by rewrite Hresult, Hshape, Hwire. }
  assert (∀ k, Js.get k (Js.JObj fields') = Js.wire (Js.get k (Js.JObj fields)))
    as Hget.
  { intros k. rewrite <- Hwire. by apply JsFacts.get_wire. }
  assert (Js.get "body" (Js.JObj fields) =
          Js.JStr match extractTextFromPart full with
                  | Some (t, _) => t
                  | None => ""
                  end) as Hbody by (by injection Hfields as <-).
  assert (Js.get "isHtml" (Js.JObj fields) =
          Js.JBool match extractTextFromPart full with
                   | Some (_, h) => h
                   | None => false
                   end) as Hflag by (by injection Hfields as <-).
  pose proof (Hget "body") as Hbody'. rewrite Hbody in Hbody'.
  pose proof (Hget "isHtml") as Hflag'. rewrite Hflag in Hflag'.
  cbn [Js.wire] in Hbody', Hflag'.
  clear Hfields Hwire Hassoc Hbody Hflag.
  unfold out. rewrite Harrived. clear out arrived Harrived.
  split; [reflexivity|]. split; [exact Hget|].
  unfold FrontEnd.to_markdown, FrontEnd.html_message.
  change (Js.get "message" (Js.JObj [("success", Js.JBool true);
                                     ("message", Js.JObj fields')]))
    with (Js.JObj fields').
  change (Js.has "success" (Js.JObj [("success", Js.JBool true);
                                     ("message", Js.JObj fields')])) with true.
  change (Js.has "message" (Js.JObj [("success", Js.JBool true);
                                     ("message", Js.JObj fields')])) with true.
  rewrite Hflag'. cbn [Js.truthy Js.is_object andb].
  destruct (extractTextFromPart full) as [[t [|]]|].
  - assert (Js.assoc "isHtml" fields' = Some (Js.JBool true)) as Hf
      by (by apply FrontEndSpec.get_is_Some).
    assert (Js.assoc "body" fields' = Some (Js.JStr t)) as Hb
      by (by apply FrontEndSpec.get_is_Some).
    assert (Js.has "isHtml" (Js.JObj fields') = true) as Hhf.
    { unfold Js.has. rewrite Hf. by apply bool_decide_eq_true_2. }
    assert (Js.has "body" (Js.JObj fields') = true) as Hhb.
    { unfold Js.has. rewrite Hb. by apply bool_decide_eq_true_2. }
    rewrite Hhf. cbn [Js.truthy andb].
    unfold FrontEnd.convert. rewrite Hhb, Hbody'.
    destruct (turndown t) as [markdown|err].
    + change (Js.get "message"
                (Js.set "message" ?m (Js.JObj [("success", Js.JBool true);
                                               ("message", Js.JObj fields')])))
        with m.
      cbn [Js.set Js.delete Js.get]. split_and!.
      * rewrite JsFacts.assoc_remove_ne by done.
        by rewrite JsFacts.assoc_assign_eq.
      * unfold Js.has. rewrite JsFacts.assoc_remove_eq.
        apply bool_decide_eq_false. by intros [? ?].
      * intros k Hk1 Hk2. rewrite JsFacts.assoc_remove_ne by done.
        rewrite JsFacts.assoc_assign_ne by done. apply (Hget k).
    + split_and!; [reflexivity | exact Hbody' | exact Hflag'].
  - cbn [Js.truthy andb]. rewrite andb_false_r.
    split_and!; [reflexivity | exact Hbody' | exact Hflag'].
  - cbn [Js.truthy andb]. rewrite andb_false_r.
    split_and!; [reflexivity | exact Hbody' | exact Hflag'].
Qed.

End Turndown.

(** A header field that is [undefined] is a key of the worker's
    result and is missing from what the tool returns. *)
Example undefined_header_is_dropped :
  let result := handleReadEmail (Js.JObj [("messageId", Js.JNum 7)]) no_cc html_part in
  let out := FrontEnd.to_markdown FrontEndScenario.heading_only (Js.wire result) in
  Js.has "cc" (Js.get "message" result) = true ∧
  Js.has "cc" (Js.get "message" out) = false ∧
  Js.get "body" (Js.get "message" out) = Js.JStr "# Hello".
Proof. split_and!; reflexivity. Qed.

(** *** Listing folders *)

Lemma descendants_unfold folder :
  descendants folder = flat_map (λ sub, sub :: descendants sub) (subFolders folder).
Proof.
  destruct folder as [? ? ? ? ? subs]. simpl.
  induction subs as [|g r IH]; simpl; [done|]. by rewrite IH.
Qed.

Lemma descendants_perm folder :
  descendants folder ≡ₚ subFolders folder ++ flat_map descendants (subFolders folder).
Proof.
  rewrite descendants_unfold. induction (subFolders folder) as [|g r IH]; simpl; [done|].
  rewrite IH. constructor. rewrite !app_assoc.
  apply Permutation_app_tail, Permutation_app_comm.
Qed.

Lemma last_split (l : list MailFolder) x : last l = Some x → l = removelast l ++ [x].
Proof.
  intros H. destruct (decide (l = [])) as [->|Hne]; [done|].
  rewrite (app_removelast_last x Hne) at 1. do 2 f_equal.
  revert H. clear. induction l as [|a [|b l] IH]; simpl; try done. by intros [= ->].
Qed.

Lemma explore_perm exploring folders :
  explore exploring folders ≡ₚ folders ++ flat_map descendants exploring.
Proof.
  funelim (explore exploring folders).
  - rewrite H. rewrite (last_split _ _ popped) at 2.
    rewrite !flat_map_app. simpl. rewrite app_nil_r.
    rewrite (descendants_perm folder). rewrite <- !app_assoc.
    apply Permutation_app_head. rewrite !app_assoc.
    apply Permutation_app_tail, Permutation_app_comm.
  - match goal with Hl : last exploring = None |- _ =>
      pose proof (proj1 (last_None _) Hl) as Hnil end.
    rewrite Hnil. simpl. by rewrite app_nil_r.
Qed.

(** The explicit stack finds every folder.  For an account whose root
    folder has an id, the loop of [getAllFoldersForAccount] ends and
    returns every folder below the root exactly once, the root itself
    left out (the order is that of the stack, not of the tree). *)
Theorem stack_lists_every_folder root :
  folder_id root ≠ "" →
  getAllFoldersForAccount_stack (Some root) ≡ₚ descendants root ∧
  S (length (getAllFoldersForAccount_stack (Some root))) = folders_in root.
Proof.
  intros Hid. unfold getAllFoldersForAccount_stack.
  apply String.eqb_neq in Hid. rewrite Hid. simpl.
  assert (explore [root] [] ≡ₚ descendants root) as Hperm.
  { rewrite explore_perm. simpl. by rewrite app_nil_r. }
  split; [done|]. rewrite Hperm. clear.
  induction root as [? ? ? ? ? subs IH] using MailFolder_nested_ind.
  rewrite descendants_unfold. simpl. f_equal.
  induction IH as [|g r Hg _ IHr]; simpl; [done|].
  rewrite length_app, <- IHr, <- Hg. done.
Qed.

Lemma stack_lists_every_folder_witness :
  folder_id mailbox ≠ "" ∧
  getAllFoldersForAccount_stack (Some mailbox) ≡ₚ descendants mailbox ∧
  S (length (getAllFoldersForAccount_stack (Some mailbox))) = folders_in mailbox.
Proof.
  assert (folder_id mailbox ≠ "") as Hid by discriminate.
  split; [exact Hid|]. exact (stack_lists_every_folder mailbox Hid).
Defined.

Section Api.

Variable get_throws : string → bool.
Variable getSubFolders_throws : string → bool.

Local Abbreviation traverse := (Handlers.traverse get_throws getSubFolders_throws).

Lemma traverse_unfold folder :
  traverse folder =
  if get_throws (folder_id folder) then []
  else folder :: (if getSubFolders_throws (folder_id folder) then []
                  else flat_map traverse (subFolders folder)).
Proof.
  destruct folder as [i ? ? ? ? subs]. simpl.
  destruct (get_throws i); [done|]. by destruct (getSubFolders_throws i).
Qed.

Lemma traverse_sublist folder :
  traverse folder `sublist_of` folder :: descendants folder ∧
  Forall (λ f, get_throws (folder_id f) = false) (traverse folder).
Proof.
  induction folder as [i n p t u subs IH] using MailFolder_nested_ind.
  rewrite traverse_unfold, descendants_unfold. simpl.
  destruct (get_throws i) eqn:Hi; [split; [apply sublist_nil_l | constructor]|].
  destruct (getSubFolders_throws i).
  { split; [apply sublist_skip, sublist_nil_l | by repeat constructor]. }
  assert (flat_map traverse subs `sublist_of` flat_map (λ sub, sub :: descendants sub) subs ∧
          Forall (λ f, get_throws (folder_id f) = false) (flat_map traverse subs))
    as [Hsub Hall].
  { induction IH as [|g r [Hg Hg'] _ [IHr IHr']]; simpl; [by split|].
    split; [by apply (sublist_app (traverse g) (g :: descendants g)) | by apply Forall_app]. }
  split; [by apply sublist_skip | by constructor].
Qed.

(** The recursive listing.  Whatever calls of the API fail, the
    version of [getAllFoldersForAccount] that recurses over the API
    lists folders below the root in document order, each one readable,
    and never one that the account does not have; a failure loses the
    folder concerned or the folders below it, not the others.  When no
    call fails it lists every folder below the root, and the version
    with the explicit stack lists the same folders. *)
Theorem recursion_lists_in_document_order root folders :
  getAllFoldersForAccount get_throws getSubFolders_throws (Some root) = Some folders →
  folders `sublist_of` descendants root ∧
  Forall (λ f, get_throws (folder_id f) = false) folders ∧
  ((∀ i, get_throws i = false) → (∀ i, getSubFolders_throws i = false) →
   folder_id root ≠ "" →
   folders = descendants root ∧
   getAllFoldersForAccount_stack (Some root) ≡ₚ folders).
Proof.
  unfold getAllFoldersForAccount.
  destruct (String.eqb (folder_id root) "") eqn:Hid; simpl.
  { intros [= <-]. split_and!; [apply sublist_nil_l | constructor |].
    intros _ _ Hne. by apply String.eqb_eq in Hid. }
  destruct (getSubFolders_throws (folder_id root)) eqn:Hroot; [done|].
  intros [= <-]. rewrite descendants_unfold.
  assert (∀ subs,
            flat_map traverse subs `sublist_of`
              flat_map (λ sub, sub :: descendants sub) subs ∧
            Forall (λ f, get_throws (folder_id f) = false) (flat_map traverse subs))
    as Hsubs.
  { induction subs as [|g r [IHr IHr']]; simpl; [by split|].
    destruct (traverse_sublist g) as [Hg Hg'].
    split; [by apply (sublist_app (traverse g) (g :: descendants g)) | by apply Forall_app]. }
  destruct (Hsubs (subFolders root)) as [Hsub Hall].
  split_and!; [done..|].
  intros Hg Hs Hne.
  assert (∀ folder, traverse folder = folder :: descendants folder) as Hfull.
  { intros folder.
    induction folder as [i n p t u subs IH] using MailFolder_nested_ind.
    rewrite traverse_unfold, descendants_unfold. simpl. rewrite Hg, Hs. f_equal.
    induction IH as [|g r Hgr _ IHr]; simpl; [done|]. by rewrite Hgr, IHr. }
  assert (∀ subs, flat_map traverse subs =
                  flat_map (λ sub, sub :: descendants sub) subs) as Heq.
  { induction subs as [|g r IHr]; simpl; [done|]. by rewrite Hfull, IHr. }
  split; [done|]. rewrite Heq, <- descendants_unfold.
  unfold getAllFoldersForAccount_stack. rewrite Hid. simpl.
  rewrite explore_perm. simpl. by rewrite app_nil_r.
Qed.

End Api.

Lemma recursion_lists_in_document_order_witness :
  let folders := descendants mailbox in
  getAllFoldersForAccount (λ _, false) (λ _, false) (Some mailbox) = Some folders ∧
  folders `sublist_of` descendants mailbox ∧
  getAllFoldersForAccount_stack (Some mailbox) ≡ₚ folders.
Proof.
  intros folders.
  assert (getAllFoldersForAccount (λ _, false) (λ _, false) (Some mailbox)
          = Some folders) as Hres by reflexivity.
  split; [exact Hres|].
  destruct (recursion_lists_in_document_order (λ _, false) (λ _, false)
              mailbox folders Hres) as (Hsub & _ & Hfull).
  split; [exact Hsub|].
  refine (proj2 (Hfull (λ _, eq_refl) (λ _, eq_refl) _)). discriminate.
Defined.

(** *** Unread mail *)

Section Unread.

Variable toLowerCase : string → string.
Variable list_messages : MailFolder → option (list Js.value).
Variable getTime : Js.value → option Z.

Local Abbreviation isSpamFolder := (Handlers.isSpamFolder toLowerCase).
Local Abbreviation too_old := (Handlers.too_old getTime).
Local Abbreviation scan := (Handlers.scan getTime).
Local Abbreviation each_folder :=
  (Handlers.each_folder toLowerCase list_messages getTime).
Local Abbreviation each_account :=
  (Handlers.each_account toLowerCase list_messages getTime).















End Unread.


(** A limit of zero still returns a message. *)
Example unread_with_limit_zero :
  unread_messages (λ s, s) three_each (λ _, None) (Some (Finite 0 1))
    (Js.JBool false) Js.JUndefined [descendants mailbox] = Some [mail 1 true].
Proof. reflexivity. Qed.

(** The junk folder is skipped and the limit is kept. *)
Example unread_with_limit_four :
  unread_messages (λ s, s) three_each (λ _, None) (Some (Finite 4 1))
    (Js.JBool false) Js.JUndefined [descendants mailbox] =
  Some [mail 1 true; mail 3 true; mail 1 true; mail 3 true].
Proof. reflexivity. Qed.

(** A limit that cannot be compared makes the handler reject. *)
Example unread_with_limit_object :
  handleListUnreadEmails (λ s, s) three_each (λ _, None) None
    (Js.JBool false) Js.JUndefined [descendants mailbox] = None.
Proof. reflexivity. Qed.

End HandlersSpec.
